(** * The Gaussian-process covariance engine of [bsfh.likelihood.gp]

    A shallow embedding of [src/bsfh/likelihood/gp.py] and the properties of
    its covariance builders, its factorization cache, its likelihood and its
    prediction.

    Conventions of the embedding.
    - numpy floats are real numbers ([R]); [np.log] alone reaches outside
      them, so its results live in [xfloat] (a real, or a non-finite value).
      Rounding, overflow and underflow are not modelled. What holds of the
      reals only (that [exp] is injective and inverted by [ln], that
      products can be regrouped, that a square is finite) is kept out of
      the statements: they speak of [np.exp(kernel)] rather than of the
      kernel vector, give a value by the operations the code performs, and
      bound their inputs where the code would overflow.
    - one-dimensional arrays are lists, two-dimensional arrays carry their
      shape ([arr2]) while they are being broadcast and are lists of rows
      ([matrix]) once built.
    - the observational arrays are values: the engine never writes to them.
      The kernel vector is a buffer in a store, because the engine keeps
      slices of it ([PhotOutlier.kernel_to_params]) and its callers write to
      it in place ([gp.kernel[:] = ...] in [bsfh.io.read_results]).
    - a Python exception is a result [Raise e]; a method that writes to
      [self] returns the object it leaves behind together with its result,
      also when it raises.
    - [scipy.linalg.cho_factor] and [cho_solve] are parameters ([LinAlg]). *)

From Stdlib Require Import Reals Lra Lia List Bool ZArith Zfloor PeanoNat.
From Stdlib Require String.
Import ListNotations.

Local Open Scope R_scope.

(** ** Python results *)

Inductive exn : Set :=
| TypeError
| ValueError
| IndexError
| AssertionError
| AttributeError
| LinAlgError.

Inductive result (A : Type) : Type :=
| Ok (a : A)
| Raise (e : exn).

Arguments Ok {A} a.
Arguments Raise {A} e.

Definition bind {A B : Type} (r : result A) (k : A -> result B) : result B :=
  match r with
  | Ok a => k a
  | Raise e => Raise e
  end.

Notation "'do' x <- r ; k" := (bind r (fun x => k))
  (at level 10, x name, r at level 100, k at level 200).

Definition rmap {A B : Type} (f : A -> B) (r : result A) : result B :=
  match r with
  | Ok a => Ok (f a)
  | Raise e => Raise e
  end.

(** [assert b] *)
Definition py_assert (b : bool) : result unit :=
  if b then Ok tt else Raise AssertionError.

(** A value that is used as an array but may be [None]. *)
Definition not_none {A : Type} (o : option A) : result A :=
  match o with
  | Some a => Ok a
  | None => Raise TypeError
  end.

(** ** numpy *)

Module Numpy.

Definition vec := list R.
Definition matrix := list (list R).

(** Float comparison [==]. *)
Definition Reqb (x y : R) : bool := if Req_dec_T x y then true else false.

(** [np.array_equal] on two one-dimensional arrays: same shape, same
    elements. *)
Fixpoint vec_eqb (a b : vec) : bool :=
  match a, b with
  | [], [] => true
  | x :: a', y :: b' => Reqb x y && vec_eqb a' b'
  | _, _ => false
  end.

(** A scalar or a one-dimensional array: the flux scaling is [1] or a vector,
    [construct_diagonal] returns [0.0] or a vector. *)
Inductive scalar_or_vec : Type :=
| Scalar (x : R)
| Vector (v : vec).

Definition sv_eqb (a b : scalar_or_vec) : bool :=
  match a, b with
  | Scalar x, Scalar y => Reqb x y
  | Vector u, Vector v => vec_eqb u v
  | _, _ => false
  end.

(** [np.array_equal(a, cached)] where the cached attribute may still be
    [None]. *)
Definition array_equal_opt (a : vec) (cached : option vec) : bool :=
  match cached with
  | Some c => vec_eqb a c
  | None => false
  end.

(** [np.any(f != 1)] and [np.all(f == 1)]. *)
Definition any_ne_1 (f : scalar_or_vec) : bool :=
  match f with
  | Scalar x => negb (Reqb x 1)
  | Vector v => existsb (fun x => negb (Reqb x 1)) v
  end.

Definition all_eq_1 (f : scalar_or_vec) : bool :=
  match f with
  | Scalar x => Reqb x 1
  | Vector v => forallb (fun x => Reqb x 1) v
  end.

(** [len(f)]: a Python number has no length. *)
Definition sv_len (f : scalar_or_vec) : result nat :=
  match f with
  | Scalar _ => Raise TypeError
  | Vector v => Ok (length v)
  end.

(** [f[:, None]], [f[None, :]], [f[locs]] need an array. *)
Definition sv_array (f : scalar_or_vec) : result vec :=
  match f with
  | Scalar _ => Raise TypeError
  | Vector v => Ok v
  end.

(** A two-dimensional array with its shape. *)
Record arr2 : Type := Arr2 { sh0 : nat; sh1 : nat; ent : nat -> nat -> R }.

Definition to_matrix (A : arr2) : matrix :=
  map (fun i => map (ent A i) (seq 0 (sh1 A))) (seq 0 (sh0 A)).

(** [v[:, None]] and [v[None, :]]. *)
Definition col (v : vec) : arr2 := Arr2 (length v) 1 (fun i _ => nth i v 0).
Definition row (v : vec) : arr2 := Arr2 1 (length v) (fun _ j => nth j v 0).

(** Broadcasting of one axis: equal lengths, or one of them is 1. *)
Definition bdim (a b : nat) : option nat :=
  if (a =? b)%nat then Some a
  else if (a =? 1)%nat then Some b
  else if (b =? 1)%nat then Some a
  else None.

(** The index read on an axis of length [d] for position [i] of the
    broadcast result. *)
Definition bidx (d i : nat) : nat := if (d =? 1)%nat then 0%nat else i.

(** An elementwise binary operation with broadcasting. *)
Definition bop (f : R -> R -> R) (A B : arr2) : result arr2 :=
  match bdim (sh0 A) (sh0 B), bdim (sh1 A) (sh1 B) with
  | Some r, Some c =>
      Ok (Arr2 r c (fun i j =>
            f (ent A (bidx (sh0 A) i) (bidx (sh1 A) j))
              (ent B (bidx (sh0 B) i) (bidx (sh1 B) j))))
  | _, _ => Raise ValueError
  end.

(** An elementwise function of one array. *)
Definition amap (f : R -> R) (A : arr2) : arr2 :=
  Arr2 (sh0 A) (sh1 A) (fun i j => f (ent A i j)).

(** [np.diag_indices_from(A)]: the array must be square; the result is the
    number of diagonal positions. *)
Definition diag_indices_from (A : arr2) : result nat :=
  if (sh0 A =? sh1 A)%nat then Ok (sh0 A) else Raise ValueError.

(** [A[dinds] += d] for the [n] diagonal positions [dinds]: [d] is a scalar
    or broadcasts to length [n]. *)
Definition diag_iadd (A : arr2) (n : nat) (d : scalar_or_vec) : result arr2 :=
  match d with
  | Scalar x =>
      Ok (Arr2 (sh0 A) (sh1 A) (fun i j =>
            if ((i =? j) && (i <? n))%nat then ent A i j + x else ent A i j))
  | Vector v =>
      if ((length v =? n) || (length v =? 1))%nat then
        Ok (Arr2 (sh0 A) (sh1 A) (fun i j =>
              if ((i =? j) && (i <? n))%nat
              then ent A i j + nth (bidx (length v) i) v 0
              else ent A i j))
      else Raise ValueError
  end.

(** [v ** 2] and [v + s] on a vector. *)
Definition vsq (v : vec) : vec := map (fun x => x ^ 2) v.
Definition vadd_scalar (v : vec) (s : R) : vec := map (fun x => x + s) v.

(** [np.dot] of two vectors of one length. *)
Fixpoint dot (a b : vec) : R :=
  match a, b with
  | x :: a', y :: b' => x * y + dot a' b'
  | _, _ => 0
  end.

Definition np_dot (a b : vec) : result R :=
  if (length a =? length b)%nat then Ok (dot a b) else Raise ValueError.

(** [np.dot(M, v)], [np.dot(M, B)], [M.T], [-M], [A - B] on built matrices. *)
Definition ncols (M : matrix) : nat := length (hd [] M).

Definition column (j : nat) (M : matrix) : vec := map (fun r => nth j r 0) M.

Definition transpose (M : matrix) : matrix :=
  map (fun j => column j M) (seq 0 (ncols M)).

Definition dot_mv (M : matrix) (v : vec) : result vec :=
  if forallb (fun r => (length r =? length v)%nat) M
  then Ok (map (fun r => dot r v) M)
  else Raise ValueError.

Definition dot_mm (M B : matrix) : result matrix :=
  if forallb (fun r => (length r =? length B)%nat) M
  then Ok (map (fun r => map (fun j => dot r (column j B)) (seq 0 (ncols B))) M)
  else Raise ValueError.

Definition mneg (M : matrix) : matrix := map (map Ropp) M.

Fixpoint vsub (a b : vec) : vec :=
  match a, b with
  | x :: a', y :: b' => (x - y) :: vsub a' b'
  | _, _ => []
  end.

Fixpoint msub_rows (A B : matrix) : matrix :=
  match A, B with
  | r :: A', q :: B' => vsub r q :: msub_rows A' B'
  | _, _ => []
  end.

Definition msub (A B : matrix) : result matrix :=
  if ((length A =? length B) && (ncols A =? ncols B))%nat
  then Ok (msub_rows A B)
  else Raise ValueError.

(** The value of [np.log] and of what is computed from it: a float that is a
    real number, or one that is not finite ([inf], [-inf], [nan]). *)
Inductive xfloat : Type :=
| Finite (x : R)
| NonFinite.

Definition np_log (x : R) : xfloat :=
  if Rlt_dec 0 x then Finite (ln x) else NonFinite.

Definition xadd (a b : xfloat) : xfloat :=
  match a, b with
  | Finite x, Finite y => Finite (x + y)
  | _, _ => NonFinite
  end.

(** Multiplication by a literal that is not zero. *)
Definition xscale (c : R) (a : xfloat) : xfloat :=
  match a with
  | Finite x => Finite (c * x)
  | NonFinite => NonFinite
  end.

Definition np_sum (l : list xfloat) : xfloat := fold_left xadd l (Finite 0).

Definition isfinite (a : xfloat) : bool :=
  match a with
  | Finite _ => true
  | NonFinite => false
  end.

(** [np.diag(M)] *)
Definition np_diag (M : matrix) : vec :=
  map (fun i => nth i (nth i M []) 0) (seq 0 (Nat.min (length M) (ncols M))).

(** [x.astype(int)]: truncation towards zero. *)
Definition astype_int (x : R) : Z :=
  if Rle_dec 0 x then Zfloor x else Zceil x.

(** The position an integer index denotes in an axis of length [n]; negative
    indices count from the end. *)
Definition norm_index (n : nat) (z : Z) : result nat :=
  if ((0 <=? z) && (z <? Z.of_nat n))%Z then Ok (Z.to_nat z)
  else if ((- Z.of_nat n <=? z) && (z <? 0))%Z then Ok (Z.to_nat (z + Z.of_nat n))
  else Raise IndexError.

Fixpoint norm_indices (n : nat) (zs : list Z) : result (list nat) :=
  match zs with
  | [] => Ok []
  | z :: zs' =>
      do i <- norm_index n z;
      do ks <- norm_indices n zs';
      Ok (i :: ks)
  end.

(** [np.max] of an integer array; an empty array has no maximum. *)
Definition np_max (zs : list Z) : result Z :=
  match zs with
  | [] => Raise ValueError
  | z :: zs' => Ok (fold_left Z.max zs' z)
  end.

(** [v[a:b]] *)
Definition slice (a b : nat) (v : vec) : vec := firstn (b - a) (skipn a v).

End Numpy.

Import Numpy.

(** ** scipy.linalg *)

(** The pair [(c, lower)] that [cho_factor] returns. *)
Definition factor : Type := (matrix * bool)%type.

(** [cho_factor] raises [LinAlgError] on a matrix that is not positive
    definite; [cho_solve] takes a vector or a matrix as right-hand side. The
    [check_finite] option of both has nothing to look for among real
    numbers and is left out. *)
Class LinAlg : Type := {
  cho_factor : matrix -> result factor;
  cho_solve : factor -> vec -> result vec;
  cho_solve_m : factor -> matrix -> result matrix
}.

(** ** The engine's data *)

Inductive kernel_variant : Set :=
| ExpSquared
| Matern
| PhotOutlier.

(** A basic slice [buf[start:stop]] of a kernel buffer: a view, which reads
    the buffer as it is when the view is read. *)
Record view : Set := View { v_buf : nat; v_start : nat; v_stop : nat }.

(** What [kernel_to_params] returns: the three floats that
    [np.exp(kernel).tolist()] copies out of the kernel vector, or the jitter
    of the outlier kernel with its two slices of the kernel vector. *)
Inductive params : Set :=
| SmoothParams (s asq lsq : R)
| OutlierParams (jitter : R) (locs amps : view).

(** The attributes of a [GaussianProcess] object. [store] holds the kernel
    buffers the object and its caller share, [kernel] names the buffer bound
    to [self.kernel]. [factorizations] counts the calls of [cho_factor] and
    is not an attribute of the Python object. *)
Record GP : Type := mkGP {
  variant : kernel_variant;
  store : list vec;
  kernel : nat;
  _params : option params;
  params_clean : bool;
  data_clean : bool;
  _wave : option vec;
  _sigma : option vec;
  _flux : scalar_or_vec;
  factorized_Sigma : option factor;
  log_det : option xfloat;
  factorizations : nat
}.

Definition kernel_buf (st : GP) : vec := nth (kernel st) (store st) [].

Definition read_view (sto : list vec) (v : view) : vec :=
  slice (v_start v) (v_stop v) (nth (v_buf v) sto []).

Definition set_params (st : GP) (clean : bool) (p : option params) : GP :=
  mkGP (variant st) (store st) (kernel st) p clean (data_clean st)
       (_wave st) (_sigma st) (_flux st) (factorized_Sigma st) (log_det st)
       (factorizations st).

Definition set_data (st : GP) (clean : bool) (w s : option vec)
    (f : scalar_or_vec) : GP :=
  mkGP (variant st) (store st) (kernel st) (_params st) (params_clean st) clean
       w s f (factorized_Sigma st) (log_det st) (factorizations st).

Definition set_factor (st : GP) (F : option factor) (ld : option xfloat) : GP :=
  mkGP (variant st) (store st) (kernel st) (_params st) (params_clean st)
       (data_clean st) (_wave st) (_sigma st) (_flux st) F ld
       (factorizations st).

Definition set_clean (st : GP) : GP :=
  mkGP (variant st) (store st) (kernel st) (_params st) true true
       (_wave st) (_sigma st) (_flux st) (factorized_Sigma st) (log_det st)
       (factorizations st).

Definition count_factorization (st : GP) : GP :=
  mkGP (variant st) (store st) (kernel st) (_params st) (params_clean st)
       (data_clean st) (_wave st) (_sigma st) (_flux st) (factorized_Sigma st)
       (log_det st) (S (factorizations st)).

Definition set_kernel_store (st : GP) (sto : list vec) (k : nat) : GP :=
  mkGP (variant st) sto k (_params st) (params_clean st) (data_clean st)
       (_wave st) (_sigma st) (_flux st) (factorized_Sigma st) (log_det st)
       (factorizations st).

(** *** What the caller does to [gp.kernel] *)

Fixpoint upd {A : Type} (i : nat) (x : A) (l : list A) : list A :=
  match l, i with
  | [], _ => []
  | _ :: l', O => x :: l'
  | y :: l', S i' => y :: upd i' x l'
  end.

(** [gp.kernel[i] = x] with [0 <= i]: writes into the buffer. *)
Definition kernel_setitem (st : GP) (i : nat) (x : R) : result unit * GP :=
  if (i <? length (kernel_buf st))%nat
  then (Ok tt,
        set_kernel_store st (upd (kernel st) (upd i x (kernel_buf st)) (store st))
                         (kernel st))
  else (Raise IndexError, st).

(** [gp.kernel[:] = v]: writes into the buffer ([read_results.model_comp]). *)
Definition kernel_assign (st : GP) (v : vec) : result unit * GP :=
  if (length v =? length (kernel_buf st))%nat
  then (Ok tt, set_kernel_store st (upd (kernel st) v (store st)) (kernel st))
  else if (length v =? 1)%nat
  then (Ok tt,
        set_kernel_store st
          (upd (kernel st) (repeat (hd 0 v) (length (kernel_buf st))) (store st))
          (kernel st))
  else (Raise ValueError, st).

(** [gp.kernel = v]: binds the attribute to another array. *)
Definition kernel_rebind (st : GP) (v : vec) : GP :=
  set_kernel_store st (store st ++ [v]) (length (store st)).

(** ** The kernel families *)

(** [kernel_properties[0]] *)
Definition kernel_properties (v : kernel_variant) : nat := 3.

(** [kernel_to_params(kernel)], [kernel] being the buffer [k] of [sto]. The
    smooth kernels unpack [np.exp(kernel).tolist()] into three names. The
    outlier kernel halves [len(kernel) - jitter], which is even. *)
Definition kernel_to_params (v : kernel_variant) (sto : list vec) (k : nat)
    : result params :=
  let kern := nth k sto [] in
  match v with
  | ExpSquared | Matern =>
      match map exp kern with
      | [s; asquared; lsquared] => Ok (SmoothParams s asquared lsquared)
      | _ => Raise ValueError
      end
  | PhotOutlier =>
      let jitter := Nat.odd (length kern) in
      let nout := ((length kern - (if jitter then 1 else 0)) / 2)%nat in
      let amps := View k 0 nout in
      let locs := View k nout (2 * nout) in
      Ok (OutlierParams (if jitter then last kern 0 else 0) locs amps)
  end.

(** [asarray(params)] inside [np.array_equal], the values being read when
    the comparison is made. The tuple of three floats of the smooth kernels
    is an array of shape (3,). The tuple [(jitter, locs, amps)] of the
    outlier kernel is one too when each slice has exactly one element, which
    then counts as a scalar; with slices of any other length the tuple is
    ragged and [asarray] raises. *)
Definition params_asarray (sto : list vec) (p : params) : option vec :=
  match p with
  | SmoothParams s a l => Some [s; a; l]
  | OutlierParams j lo am =>
      match read_view sto lo, read_view sto am with
      | [l], [a] => Some [j; l; a]
      | _, _ => None
      end
  end.

(** [np.array_equal(params, self._params)]: false when [asarray] raises on
    either argument or the shapes differ ([asarray(None)] has shape ()),
    and otherwise whether all entries are equal. *)
Definition params_equal (sto : list vec) (p : params) (cached : option params)
    : bool :=
  match cached with
  | None => false
  | Some q =>
      match params_asarray sto p, params_asarray sto q with
      | Some a, Some b => vec_eqb a b
      | _, _ => false
      end
  end.

(** Whether [asarray(params)] returns. *)
Definition params_regular (sto : list vec) (p : params) : bool :=
  match params_asarray sto p with
  | Some _ => true
  | None => false
  end.

(** [s, asq, lsq = self._params] in the smooth kernels. *)
Definition smooth_params (st : GP) : result (R * R * R) :=
  do p <- not_none (_params st);
  match p with
  | SmoothParams s asq lsq => Ok (s, asq, lsq)
  | OutlierParams _ _ _ => Raise TypeError
  end.

Definition ExpSquared_construct_kernel (st : GP) (x xstar : option vec)
    : result arr2 :=
  do p <- smooth_params st;
  let '(s, asq, lsq) := p in
  do xs <- not_none xstar;
  do x' <- not_none x;
  do D <- bop Rminus (col xs) (row x');
  Ok (amap (fun d => asq * exp ((- (d ^ 2)) / (2 * lsq))) D).

Definition Matern_construct_kernel (st : GP) (x xstar : option vec)
    : result arr2 :=
  do p <- smooth_params st;
  let '(s, asq, lsq) := p in
  let l := sqrt lsq in
  do xs <- not_none xstar;
  do x' <- not_none x;
  do D <- bop Rminus (col xs) (row x');
  let Sigma := amap (fun d => sqrt 3 * d / l) D in
  Ok (amap (fun d => (1 + d) * exp (- d)) Sigma).

(** The call [self.construct_kernel(x, xstar)]. [PhotOutlier] inherits the
    base method, which takes no coordinates. *)
Definition construct_kernel (st : GP) (x xstar : option vec) : result arr2 :=
  match variant st with
  | ExpSquared => ExpSquared_construct_kernel st x xstar
  | Matern => Matern_construct_kernel st x xstar
  | PhotOutlier => Raise TypeError
  end.

(** The call [self.construct_diagonal()] ([test = None]) or
    [self.construct_diagonal(test=True)]. The smooth kernels override the
    method without the keyword; [PhotOutlier] inherits the base method. *)
Definition construct_diagonal (st : GP) (test : option bool)
    : result scalar_or_vec :=
  match variant st with
  | ExpSquared | Matern =>
      match test with
      | Some _ => Raise TypeError
      | None =>
          do p <- smooth_params st;
          let '(s, asq, lsq) := p in
          do sigma <- not_none (_sigma st);
          Ok (Vector (vadd_scalar (vsq sigma) (s ^ 2)))
      end
  | PhotOutlier =>
      match test with
      | Some true => Ok (Scalar 0)
      | _ => do sigma <- not_none (_sigma st); Ok (Vector (vsq sigma))
      end
  end.

(** ** The covariance builders *)

(** [a[:, None] * Sigma * b[None, :]] *)
Definition scale_rows_cols (a : vec) (Sigma : arr2) (b : vec) : result arr2 :=
  do t <- bop Rmult (col a) Sigma;
  bop Rmult t (row b).

(** [GaussianProcess.construct_covariance], which the smooth kernels
    inherit. *)
Definition base_construct_covariance (st : GP) : result arr2 :=
  do Sigma <- construct_kernel st (_wave st) (_wave st);
  do dinds <- diag_indices_from Sigma;
  do Sigma1 <-
    (if any_ne_1 (_flux st)
     then do f <- sv_array (_flux st); scale_rows_cols f Sigma f
     else Ok Sigma);
  do d <- construct_diagonal st None;
  diag_iadd Sigma1 dinds d.

(** [Sigma[(locs, locs)] += vals]: the sums are formed from the array as it
    is, then stored one after the other, so that a position listed twice
    keeps the last sum. *)
Definition fancy_diag_iadd (A : arr2) (locs : list nat) (vals : vec) : arr2 :=
  fold_left
    (fun B kx =>
       Arr2 (sh0 B) (sh1 B)
            (fun i j =>
               if ((i =? fst kx) && (j =? fst kx))%nat then snd kx
               else ent B i j))
    (map (fun kv => (fst kv, ent A (fst kv) (fst kv) + snd kv))
         (combine locs vals))
    A.

(** [a * b] on two vectors of one length. *)
Definition vmul (a b : vec) : vec :=
  map (fun xy => fst xy * snd xy) (combine a b).

Definition PhotOutlier_construct_covariance (st : GP) : result arr2 :=
  do p <- not_none (_params st);
  match p with
  | SmoothParams _ _ _ => Raise TypeError
  | OutlierParams jitter vlocs vamps =>
      let locs := map astype_int (read_view (store st) vlocs) in
      let amps := read_view (store st) vamps in
      do sigma <- not_none (_sigma st);
      let nw := length sigma in
      let flux :=
        if all_eq_1 (_flux st) then Vector (repeat 1 nw) else _flux st in
      do lf <- sv_len flux;
      do mx <- np_max locs;
      do _ <- py_assert (mx <? Z.of_nat lf)%Z;
      do _ <- py_assert (lf =? nw)%nat;
      do f <- sv_array flux;
      let Sigma := Arr2 nw nw (fun _ _ => 0) in
      let noise :=
        map (fun sf => fst sf ^ 2 + (jitter * snd sf) ^ 2) (combine sigma f) in
      do Sigma1 <- diag_iadd Sigma nw (Vector noise);
      do ks <- norm_indices (length f) locs;
      let vals := map (fun x => x ^ 2) (vmul amps (map (fun k => nth k f 0) ks)) in
      do ks' <- norm_indices nw locs;
      Ok (fancy_diag_iadd Sigma1 ks' vals)
  end.

(** The call [self.construct_covariance()]. *)
Definition construct_covariance (st : GP) : result arr2 :=
  match variant st with
  | PhotOutlier => PhotOutlier_construct_covariance st
  | _ => base_construct_covariance st
  end.

(** [assert (influx is not None) and (len(influx) == len(inwave))] *)
Definition assert_influx (influx : option scalar_or_vec) (inwave : option vec)
    : result vec :=
  match influx with
  | None => Raise AssertionError
  | Some f =>
      do n <- sv_len f;
      do w <- not_none inwave;
      do _ <- py_assert (n =? length w)%nat;
      sv_array f
  end.

(** [GaussianProcess.construct_covariance_cross(inwave, influx=influx)] *)
Definition base_construct_covariance_cross (st : GP) (inwave : option vec)
    (influx : option scalar_or_vec) : result arr2 :=
  do Sigma <- construct_kernel st (_wave st) inwave;
  if any_ne_1 (_flux st)
  then
    do fi <- assert_influx influx inwave;
    do f <- sv_array (_flux st);
    scale_rows_cols fi Sigma f
  else Ok Sigma.

(** [PhotOutlier.construct_covariance_cross], which takes keyword arguments
    only and reads none of them. *)
Definition PhotOutlier_construct_covariance_cross (st : GP) : result arr2 :=
  do sigma <- not_none (_sigma st);
  let nw := length sigma in
  do Sigma <- construct_covariance st;
  diag_iadd Sigma nw (Vector (map (fun x => - (x ^ 2)) sigma)).

(** The call [self.construct_covariance_cross(inwave, influx=influx)] of
    [predict]: the override of [PhotOutlier] takes no positional argument. *)
Definition construct_covariance_cross (st : GP) (inwave : option vec)
    (influx : option scalar_or_vec) : result arr2 :=
  match variant st with
  | PhotOutlier => Raise TypeError
  | _ => base_construct_covariance_cross st inwave influx
  end.

(** [construct_covariance_test] up to its scaling by the flux: the array
    [Sigma] and [dinds] before [Sigma[dinds] += ...]. *)
Definition covariance_test_scaled (st : GP) (inwave : option vec)
    (influx : option scalar_or_vec) : result (arr2 * nat) :=
  do Sigma <- construct_kernel st inwave inwave;
  do dinds <- diag_indices_from Sigma;
  if any_ne_1 (_flux st)
  then
    do fi <- assert_influx influx inwave;
    do w <- not_none inwave;
    do S1 <- scale_rows_cols fi Sigma w;
    Ok (S1, dinds)
  else Ok (Sigma, dinds).

(** [GaussianProcess.construct_covariance_test(inwave, influx=influx)], which
    no kernel overrides. *)
Definition construct_covariance_test (st : GP) (inwave : option vec)
    (influx : option scalar_or_vec) : result arr2 :=
  do Sd <- covariance_test_scaled st inwave influx;
  do d <- construct_diagonal st (Some true);
  diag_iadd (fst Sd) (snd Sd) d.

(** ** The cache *)

Definition update_params (st : GP) : result unit * GP :=
  match kernel_to_params (variant st) (store st) (kernel st) with
  | Raise e => (Raise e, st)
  | Ok p =>
      (Ok tt, set_params st (params_equal (store st) p (_params st)) (Some p))
  end.

(** An argument that is [None] leaves the cached value in place. *)
Definition update_data (st : GP) (wave sigma : option vec)
    (flux : option scalar_or_vec) : GP :=
  let c_wave :=
    match wave with Some w => array_equal_opt w (_wave st) | None => true end in
  let c_sigma :=
    match sigma with Some s => array_equal_opt s (_sigma st) | None => true end in
  let c_flux :=
    match flux with Some f => sv_eqb f (_flux st) | None => true end in
  set_data st
    (data_clean st && (true && c_wave && c_sigma && c_flux))
    (match wave with Some w => Some w | None => _wave st end)
    (match sigma with Some s => Some s | None => _sigma st end)
    (match flux with Some f => f | None => _flux st end).

(** [2 * np.sum(np.log(np.diag(F[0])))] *)
Definition log_det_of (F : factor) : xfloat :=
  xscale 2 (np_sum (map np_log (np_diag (fst F)))).

Section Engine.

Context {L : LinAlg}.

(** The branch of [compute] that builds and factorizes the covariance. *)
Definition rebuild (st : GP) : result unit * GP :=
  match construct_covariance st with
  | Raise e => (Raise e, st)
  | Ok Sigma =>
      let st1 := count_factorization st in
      match cho_factor (to_matrix Sigma) with
      | Raise e => (Raise e, st1)
      | Ok F =>
          let st2 := set_factor st1 (Some F) (Some (log_det_of F)) in
          if isfinite (log_det_of F)
          then (Ok tt, set_clean st2)
          else (Raise AssertionError, st2)
      end
  end.

Definition compute (st : GP) (wave sigma : option vec)
    (flux : option scalar_or_vec) (force : bool) : result unit * GP :=
  match update_params st with
  | (Raise e, st1) => (Raise e, st1)
  | (Ok _, st1) =>
      let st2 := update_data st1 wave sigma flux in
      if params_clean st2 && data_clean st2 && negb force
      then (Ok tt, st2)
      else rebuild st2
  end.

(** [-0.5 * (first_term + self.log_det + n * np.log(2 * np.pi))] *)
Definition lnL_value (first_term : R) (ld : xfloat) (n : nat) : xfloat :=
  xscale (-0.5) (xadd (xadd (Finite first_term) ld)
                      (Finite (INR n * ln (2 * PI)))).

Definition lnlikelihood (st : GP) (residual : vec) : result xfloat * GP :=
  let n := length residual in
  match (do sigma <- not_none (_sigma st); py_assert (n =? length sigma)%nat) with
  | Raise e => (Raise e, st)
  | Ok _ =>
      match compute st None None None false with
      | (Raise e, st1) => (Raise e, st1)
      | (Ok _, st1) =>
          (do F <- not_none (factorized_Sigma st1);
           do x <- cho_solve F residual;
           do first_term <- np_dot residual x;
           do ld <- match log_det st1 with
                    | Some ld => Ok ld
                    | None => Raise AttributeError
                    end;
           Ok (lnL_value first_term ld n),
           st1)
      end
  end.

(** The last two statements of [predict]. *)
Definition posterior (F : option factor) (Sigma_cross Sigma_test : matrix)
    (residual : vec) : result (vec * matrix) :=
  do F' <- not_none F;
  do x <- cho_solve F' residual;
  do mu <- dot_mv Sigma_cross x;
  do Y <- cho_solve_m F' (mneg (transpose Sigma_cross));
  do P <- dot_mm Sigma_cross Y;
  do cov <- msub Sigma_test P;
  Ok (mu, cov).

Definition predict (st : GP) (residual : vec) (inwave : option vec)
    (influx : option scalar_or_vec) : result (vec * matrix) :=
  do blocks <-
    match inwave with
    | Some w =>
        do c <- construct_covariance_cross st (Some w) influx;
        do t <- construct_covariance_test st (Some w) influx;
        Ok (c, t)
    | None =>
        do c <- construct_covariance_cross st (_wave st) (Some (_flux st));
        do t <- construct_covariance_test st (_wave st) (Some (_flux st));
        Ok (c, t)
    end;
  posterior (factorized_Sigma st) (to_matrix (fst blocks))
            (to_matrix (snd blocks)) residual.

End Engine.

(** *** Construction *)

Definition reset (st : GP) : GP :=
  mkGP (variant st)
       (store st ++ [repeat 0 (kernel_properties (variant st))])
       (length (store st))
       None false false None None (Scalar 1) None (log_det st)
       (factorizations st).

(** [__init__(wave, sigma, kernel, flux)]; the default of [flux] is
    [Some (Scalar 1)]. A kernel array that is passed in enters the store. *)
Definition init (v : kernel_variant) (wave sigma kern : option vec)
    (flux : option scalar_or_vec) : GP :=
  let st1 := reset (mkGP v [] 0 None false false None None (Scalar 1) None None 0) in
  let st2 :=
    kernel_rebind st1
      (match kern with
       | Some k => k
       | None => repeat 0 (kernel_properties v)
       end) in
  let st3 := set_data (set_params st2 false None) false
                      (_wave st2) (_sigma st2) (_flux st2) in
  update_data st3 wave sigma flux.

(** ** A Cholesky factorization

    The textbook algorithm for the upper factor [U] of [A = U^T U] and the
    two triangular solves, as one implementation of [LinAlg]. The entries
    below the diagonal are not referenced and stay as they are in [A]. *)

Module Cholesky.

Fixpoint sumf (f : nat -> R) (n : nat) : R :=
  match n with
  | O => 0
  | S k => sumf f k + f k
  end.

Definition entry (M : matrix) (i j : nat) : R := nth j (nth i M []) 0.

Definition pivot (A U : matrix) (i : nat) : R :=
  entry A i i - sumf (fun k => entry U k i ^ 2) i.

Definition factor_row (A U : matrix) (n i : nat) (u : R) : vec :=
  map (fun j =>
         if (j <? i)%nat then entry A i j
         else if (j =? i)%nat then u
         else (entry A i j - sumf (fun k => entry U k i * entry U k j) i) / u)
      (seq 0 n).

(** [check] is the test of the pivots; LAPACK makes it, and fails on a pivot
    that is not positive. *)
Fixpoint factor_rows (check : bool) (A : matrix) (n todo : nat) (U : matrix)
    : result matrix :=
  match todo with
  | O => Ok U
  | S t =>
      let i := length U in
      let p := pivot A U i in
      if negb check || (if Rlt_dec 0 p then true else false)
      then factor_rows check A n t (U ++ [factor_row A U n i (sqrt p)])
      else Raise LinAlgError
  end.

Definition factorize (check : bool) (A : matrix) : result factor :=
  let n := length A in
  if forallb (fun r => (length r =? n)%nat) A
  then do U <- factor_rows check A n n []; Ok (U, false)
  else Raise ValueError.

(** [U^T y = b], from the first unknown to the last. *)
Fixpoint forward (U : matrix) (b : vec) (todo : nat) (y : vec) : vec :=
  match todo with
  | O => y
  | S t =>
      let i := length y in
      forward U b t
        (y ++ [(nth i b 0 - sumf (fun k => entry U k i * nth k y 0) i)
               / entry U i i])
  end.

(** [U x = y], from the last unknown to the first; [x] holds the unknowns
    found so far. *)
Fixpoint backward (U : matrix) (y : vec) (i : nat) (x : vec) : vec :=
  match i with
  | O => x
  | S i' =>
      backward U y i'
        ((nth i' y 0
          - sumf (fun k => entry U i' (i' + 1 + k) * nth k x 0) (length x))
         / entry U i' i' :: x)
  end.

Definition solve_vec (U : matrix) (b : vec) : vec :=
  backward U (forward U b (length U) []) (length U) [].

Definition solve (F : factor) (b : vec) : result vec :=
  if (length b =? length (fst F))%nat
  then Ok (solve_vec (fst F) b)
  else Raise ValueError.

Definition solve_m (F : factor) (B : matrix) : result matrix :=
  if (length B =? length (fst F))%nat
  then
    let xs := map (fun j => solve_vec (fst F) (column j B)) (seq 0 (ncols B)) in
    Ok (map (fun i => map (fun x => nth i x 0) xs) (seq 0 (length B)))
  else Raise ValueError.

Definition linalg : LinAlg :=
  {| cho_factor := factorize true; cho_solve := solve; cho_solve_m := solve_m |}.

(** The same algorithm without the test of the pivots. Its factor can have a
    pivot that is not positive; it stands for the factors that fail the
    finiteness check of [compute]. *)
Definition unchecked : LinAlg :=
  {| cho_factor := factorize false; cho_solve := solve; cho_solve_m := solve_m |}.

End Cholesky.

(** ** Sequences of calls

    What a caller can do to an engine between its construction and a call
    of [compute]: the methods that write to the object, and the three ways
    of changing [gp.kernel]. [after] is the object a call leaves behind,
    whether the call returned or raised. *)

Inductive call : Type :=
| Reset
| UpdateParams
| UpdateData (wave sigma : option vec) (flux : option scalar_or_vec)
| Compute (wave sigma : option vec) (flux : option scalar_or_vec) (force : bool)
| Lnlikelihood (residual : vec)
| KernelSetitem (i : nat) (x : R)
| KernelAssign (v : vec)
| KernelRebind (v : vec).

Definition after {L : LinAlg} (st : GP) (c : call) : GP :=
  match c with
  | Reset => reset st
  | UpdateParams => snd (update_params st)
  | UpdateData w s f => update_data st w s f
  | Compute w s f force => snd (compute st w s f force)
  | Lnlikelihood r => snd (lnlikelihood st r)
  | KernelSetitem i x => snd (kernel_setitem st i x)
  | KernelAssign v => snd (kernel_assign st v)
  | KernelRebind v => kernel_rebind st v
  end.

Definition after_all {L : LinAlg} (st : GP) (cs : list call) : GP :=
  fold_left after cs st.

(** The calls that can reach the rebuilding branch of [compute]. *)
Definition rebuilds (c : call) : bool :=
  match c with
  | Compute _ _ _ _ | Lnlikelihood _ => true
  | _ => false
  end.

(** What the two flags promise about the cache: with [data_clean] a factor
    and a log-determinant are stored, with [params_clean] the parameters. *)
Definition cache_present (st : GP) : Prop :=
  (data_clean st = true ->
   (exists F, factorized_Sigma st = Some F) /\ (exists ld, log_det st = Some ld))
  /\ (params_clean st = true -> exists p, _params st = Some p).

(** ** bsfh.io.read_results *)

Module ReadResults.

(** [a - b] on two one-dimensional arrays, with broadcasting. *)
Definition vsub_b (a b : vec) : result vec :=
  match bdim (length a) (length b) with
  | Some n =>
      Ok (map (fun i =>
                 nth (bidx (length a) i) a 0 - nth (bidx (length b) i) b 0)
              (seq 0 n))
  | None => Raise ValueError
  end.

(** The value of [delta] in [model_comp]: the number [0], or the mean that
    [predict] returned. *)
Inductive delta : Type :=
| DeltaZero
| DeltaMean (mu : vec).

(** [except (TypeError, AttributeError, KeyError)]. A [KeyError] comes from a
    key that [obs] lacks only; the block below takes such an entry as
    [None]. *)
Definition caught (e : exn) : bool :=
  match e with
  | TypeError | AttributeError => true
  | _ => false
  end.

Definition handle (e : exn) (gp : option GP) : result delta * option GP :=
  if caught e then (Ok DeltaZero, gp) else (Raise e, gp).

(** The [try] statement of [model_comp] for [photflag == 0]. [gp] is [None]
    when no engine is passed; [gp_params] is [model.spec_gp_params()];
    [spectrum] and [unc] are [obs['spectrum'][mask]] and [obs['unc'][mask]],
    [None] when [obs] has no such key; [wave], [mu] and [sed] are the arrays
    of the same names. The result is [delta] and the engine as it is
    left. *)
Definition model_comp_delta {L : LinAlg} (gp : option GP) (gp_params : vec)
    (logarithmic : bool) (spectrum unc : option vec) (wave mu sed : vec)
    : result delta * option GP :=
  match gp with
  | None => (Ok DeltaZero, None)
  | Some st =>
      match kernel_assign st gp_params with
      | (Raise e, st1) => handle e (Some st1)
      | (Ok _, st1) =>
          match spectrum, unc with
          | Some spec, Some u =>
              match compute st1 (Some wave) (Some u)
                            (if logarithmic then None else Some (Vector sed))
                            false with
              | (Raise e, st2) => handle e (Some st2)
              | (Ok _, st2) =>
                  match
                    (do d <- vsub_b spec mu;
                     predict st2 d (if logarithmic then Some wave else None)
                             None)
                  with
                  | Raise e => handle e (Some st2)
                  | Ok mc => (Ok (DeltaMean (fst mc)), Some st2)
                  end
              end
          | _, _ => (Ok DeltaZero, Some st1)
          end
      end
  end.

(** The grid of panels of [param_evol] for [npar] parameters:
    [ndim = npar + 1], [nx = int(floor(sqrt(ndim)))],
    [ny = int(ceil(ndim * 1.0 / nx))]. *)
Definition panel_grid (npar : nat) : nat * nat :=
  let ndim := (npar + 1)%nat in
  let nx := Z.to_nat (Zfloor (sqrt (INR ndim))) in
  let ny := Z.to_nat (Zceil (INR ndim * 1 / INR nx)) in
  (nx, ny).

Import String.
Local Open Scope string_scope.

Definition renametable : list (string * string) :=
  [("Result", "OptimizeResult")].

Fixpoint table_get (k : string) (t : list (string * string)) : option string :=
  match t with
  | [] => None
  | (k', v) :: t' => if String.eqb k k' then Some v else table_get k t'
  end.

Definition mapname (name : string) : string :=
  match table_get name renametable with
  | Some v => v
  | None => name
  end.

(** A dictionary with string keys. *)
Definition dict (V : Type) : Type := string -> option V.

Definition dict_set {V : Type} (k : string) (v : V) (d : dict V) : dict V :=
  fun k' => if String.eqb k' k then Some v else d k'.

Inductive obs_error : Set :=
| KeyError (k : string)
| UnboundLocalError.

Inductive obs_result (V : Type) : Type :=
| Returned (obs : dict V) (outn : string) (marker : option string)
| Failed (e : obs_error).

Arguments Returned {V} obs outn marker.
Arguments Failed {V} e.

Definition dict_get {V : Type} (k : string) (d : dict V)
    (cont : V -> obs_result V) : obs_result V :=
  match d k with
  | Some v => cont v
  | None => Failed (KeyError k)
  end.

Section Obsdict.

Variable V : Type.

(** [np.array([f.wave_effective for f in filters])] and [phot_mask > 0]. *)
Variable wave_effective : V -> V.
Variable positive : V -> V.

(** [obsdict(inobs, photflag)]. The copy of [inobs] is the dictionary
    itself, which nothing writes to. When [photflag] is neither 0 nor 1 the
    names [outn] and [marker] are not bound at the [return]. *)
Definition obsdict (inobs : dict V) (photflag : Z) : obs_result V :=
  let obs := inobs in
  if (photflag =? 0)%Z then Returned obs "spectrum" None
  else if (photflag =? 1)%Z then
    dict_get "filters" obs (fun filters =>
    let obs1 := dict_set "wavelength" (wave_effective filters) obs in
    dict_get "maggies" obs1 (fun maggies =>
    let obs2 := dict_set "spectrum" maggies obs1 in
    dict_get "maggies_unc" obs2 (fun maggies_unc =>
    let obs3 := dict_set "unc" maggies_unc obs2 in
    dict_get "phot_mask" obs3 (fun phot_mask =>
    let obs4 := dict_set "mask" (positive phot_mask) obs3 in
    Returned obs4 "sed" (Some "o")))))
  else Failed UnboundLocalError.

End Obsdict.

End ReadResults.

(** ** Engines used as examples *)

(** The sparse outlier kernel with kernel vector [[2.0, 3]], five
    uncertainties of 1 and flux 1, after [update_params]. *)
Definition outlier_example : GP :=
  snd (update_params
         (init PhotOutlier None (Some [1; 1; 1; 1; 1]) (Some [2; 3])
               (Some (Scalar 1)))).

(** An engine on the single wavelength 0 with the uncertainty [sigma] and
    flux 1, as [__init__] leaves it. *)
Definition one_point (v : kernel_variant) (kern : vec) (sigma : R) : GP :=
  init v (Some [0]) (Some [sigma]) (Some kern) (Some (Scalar 1)).

(** A smooth kernel on the wavelengths [wave] with uncertainties [sigma],
    after [update_params]. *)
Definition smooth_example (v : kernel_variant) (kern wave sigma : vec)
    (flux : scalar_or_vec) : GP :=
  snd (update_params (init v (Some wave) (Some sigma) (Some kern) (Some flux))).

(** The states of a squared-exponential engine on one point with the kernel
    vector [[0, 0, 0]]: after its first [compute] with the factorization of
    {{3}}; after [gp.kernel[0] = 1.0]; after [update_params]; after the
    [compute] that follows. *)
Definition smooth_params_0 : params := SmoothParams (exp 0) (exp 0) (exp 0).
Definition smooth_params_1 : params := SmoothParams (exp 1) (exp 0) (exp 0).

Definition engine_built : GP :=
  mkGP ExpSquared [[0; 0; 0]; [0; 0; 0]] 1 (Some smooth_params_0) true true
       (Some [0]) (Some [1]) (Scalar 1)
       (Some ([[sqrt 3]], false)) (Some (Finite (2 * ln (sqrt 3)))) 1.

Definition engine_written : GP :=
  set_kernel_store engine_built [[0; 0; 0]; [1; 0; 0]] 1.

Definition engine_updated : GP :=
  set_params engine_written false (Some smooth_params_1).

Definition engine_stale : GP :=
  set_params engine_written true (Some smooth_params_1).

(** The states of a sparse outlier engine on one point with the kernel
    vector [[2, 0]], one outlier of amplitude 2 at index 0: after its first
    [compute] with the factorization of {{5}}; after [gp.kernel[0] = 3.0]. *)
Definition outlier_params : params := OutlierParams 0 (View 1 1 2) (View 1 0 1).

Definition outlier_built : GP :=
  mkGP PhotOutlier [[0; 0; 0]; [2; 0]] 1 (Some outlier_params) true true
       (Some [0]) (Some [1]) (Scalar 1)
       (Some ([[sqrt 5]], false)) (Some (Finite (2 * ln (sqrt 5)))) 1.

Definition outlier_written : GP :=
  set_kernel_store outlier_built [[0; 0; 0]; [3; 0]] 1.

(** A sparse outlier engine whose covariance matrix is {{0}}, after a
    [compute] with the unchecked factorization that failed its finiteness
    check. *)
Definition outlier_failed : GP :=
  mkGP PhotOutlier [[0; 0; 0]; [0; 0]] 1 (Some outlier_params) false false
       (Some [0]) (Some [0]) (Scalar 1)
       (Some ([[sqrt 0]], false)) (Some NonFinite) 1.

(** The states of a sparse outlier engine on one point with uncertainty 0:
    after its first [compute] with the kernel vector [[2, 0]] and the
    factorization of {{4}}; after [gp.kernel = np.array([0., 0.])]; after the
    [compute] that follows, which fails in [cho_factor] on {{0}}. *)
Definition outlier_zero_built : GP :=
  mkGP PhotOutlier [[0; 0; 0]; [2; 0]] 1 (Some outlier_params) true true
       (Some [0]) (Some [0]) (Scalar 1)
       (Some ([[sqrt 4]], false)) (Some (Finite (2 * ln (sqrt 4)))) 1.

Definition outlier_rebound : GP := kernel_rebind outlier_zero_built [0; 0].

Definition outlier_params_2 : params :=
  OutlierParams 0 (View 2 1 2) (View 2 0 1).

Definition outlier_rebound_failed : GP :=
  count_factorization (set_params outlier_rebound false (Some outlier_params_2)).

(** Smooth kernels on the wavelengths [[0, 1]] with uncertainties [[1, 1]],
    with flux 1 and with the flux vector [[2, 3]], after [update_params]. *)
Definition two_points (v : kernel_variant) : GP :=
  smooth_example v [0; 0; 0] [0; 1] [1; 1] (Scalar 1).

Definition two_points_flux : GP :=
  smooth_example ExpSquared [0; 0; 0] [0; 1] [1; 1] (Vector [2; 3]).

(** A square array equal to its transpose. *)
Definition symmetric (A : arr2) : Prop :=
  sh0 A = sh1 A /\ forall i j, ent A i j = ent A j i.

(** * Properties *)

(** ** numpy facts *)

Lemma Reqb_refl (x : R) : Reqb x x = true.
Proof. unfold Reqb. destruct (Req_dec_T x x); [reflexivity | contradiction]. Qed.

Lemma Reqb_eq (x y : R) : Reqb x y = true <-> x = y.
Proof.
  unfold Reqb. destruct (Req_dec_T x y); split; intros; auto; discriminate.
Qed.

Lemma Reqb_neq (x y : R) : x <> y -> Reqb x y = false.
Proof. unfold Reqb. destruct (Req_dec_T x y); [contradiction | reflexivity]. Qed.

Lemma vec_eqb_refl (v : vec) : vec_eqb v v = true.
Proof. induction v; simpl; [reflexivity | now rewrite Reqb_refl]. Qed.

Lemma vec_eqb_eq (a b : vec) : vec_eqb a b = true <-> a = b.
Proof.
  revert b. induction a as [|x a IH]; intros [|y b]; simpl; split; intros H;
    try reflexivity; try discriminate.
  - apply andb_true_iff in H as [Hx Hr]. apply Reqb_eq in Hx. apply IH in Hr.
    now subst.
  - injection H as -> ->. now rewrite Reqb_refl, vec_eqb_refl.
Qed.

Lemma sv_eqb_refl (f : scalar_or_vec) : sv_eqb f f = true.
Proof. destruct f; simpl; [apply Reqb_refl | apply vec_eqb_refl]. Qed.

Lemma sv_eqb_eq (a b : scalar_or_vec) : sv_eqb a b = true <-> a = b.
Proof.
  destruct a, b; simpl; split; intros H; try discriminate.
  - apply Reqb_eq in H. now subst.
  - injection H as ->. apply Reqb_refl.
  - apply vec_eqb_eq in H. now subst.
  - injection H as ->. apply vec_eqb_refl.
Qed.

Lemma params_equal_refl (sto : list vec) (p : params) :
  params_equal sto p (Some p) = params_regular sto p.
Proof.
  unfold params_equal, params_regular.
  destruct (params_asarray sto p); [apply vec_eqb_refl | reflexivity].
Qed.

Lemma params_equal_regular (sto : list vec) (p : params) (c : option params) :
  params_equal sto p c = true -> params_regular sto p = true.
Proof.
  unfold params_equal, params_regular. destruct c as [q|]; [|discriminate].
  destruct (params_asarray sto p); [reflexivity|discriminate].
Qed.

Lemma astype_int_IZR (z : Z) : astype_int (IZR z) = z.
Proof.
  unfold astype_int. destruct (Rle_dec 0 (IZR z)).
  - apply ZfloorZ.
  - unfold Zceil. rewrite <- opp_IZR, ZfloorZ. lia.
Qed.

Local Arguments pow : simpl never.

(** ** The sparse outlier kernel on five points *)

(** C8. With the kernel vector [[2.0, 3]], [kernel_to_params] yields jitter 0,
    locations [[3]] and amplitudes [[2.0]], and on five uncertainties of 1
    with flux 1 [construct_covariance] of [PhotOutlier] returns the 5x5
    matrix whose diagonal is [[1, 1, 1, 5, 1]] and whose other entries are
    zero. *)
Theorem PhotOutlier_covariance_example :
  (exists lo am,
      _params outlier_example = Some (OutlierParams 0 lo am)
      /\ read_view (store outlier_example) lo = [3]
      /\ read_view (store outlier_example) am = [2])
  /\ rmap to_matrix (construct_covariance outlier_example)
     = Ok [[1; 0; 0; 0; 0];
           [0; 1; 0; 0; 0];
           [0; 0; 1; 0; 0];
           [0; 0; 0; 5; 0];
           [0; 0; 0; 0; 1]].
Proof.
  split.
  - eexists _, _. repeat split; reflexivity.
  - unfold outlier_example, init, update_params. cbn.
    unfold construct_covariance, PhotOutlier_construct_covariance. cbn.
    rewrite Reqb_refl. cbn.
    rewrite !(astype_int_IZR 3). cbn.
    unfold to_matrix. cbn.
    change (Pos.to_nat 3) with 3%nat. cbn.
    repeat (f_equal; try lra).
Qed.

(** ** Prediction *)

(** Every array builder that [predict] calls raises for [PhotOutlier]. *)
Lemma PhotOutlier_cross_raises (st : GP) (w : option vec)
    (f : option scalar_or_vec) :
  variant st = PhotOutlier -> construct_covariance_cross st w f = Raise TypeError.
Proof. intros H. unfold construct_covariance_cross. now rewrite H. Qed.

Lemma PhotOutlier_test_raises (st : GP) (w : option vec)
    (f : option scalar_or_vec) :
  variant st = PhotOutlier -> construct_covariance_test st w f = Raise TypeError.
Proof.
  intros H. unfold construct_covariance_test, covariance_test_scaled,
    construct_kernel. now rewrite H.
Qed.

(** C10. For the [PhotOutlier] variant every call of [predict] raises,
    whatever its arguments: the call of [construct_covariance_cross] passes a
    positional argument that the override does not take, and
    [construct_covariance_test], which [PhotOutlier] inherits, raises as well
    because the inherited [construct_kernel] takes no coordinates. *)
Theorem predict_PhotOutlier_raises {L : LinAlg} (st : GP) (residual : vec)
    (inwave : option vec) (influx : option scalar_or_vec) :
  variant st = PhotOutlier ->
  predict st residual inwave influx = Raise TypeError
  /\ construct_covariance_test st inwave influx = Raise TypeError.
Proof.
  intros H. split.
  - unfold predict. destruct inwave; now rewrite PhotOutlier_cross_raises.
  - now apply PhotOutlier_test_raises.
Qed.

Lemma predict_PhotOutlier_raises_witness :
  @predict Cholesky.linalg outlier_example [0; 0; 0; 0; 0] None None
  = Raise TypeError
  /\ construct_covariance_test outlier_example None None = Raise TypeError.
Proof.
  apply (@predict_PhotOutlier_raises Cholesky.linalg outlier_example
           [0; 0; 0; 0; 0] None None).
  reflexivity.
Defined.

(** ** Symmetry of the covariance matrix *)

Lemma bdim_1_r (n : nat) : bdim n 1 = Some n.
Proof. unfold bdim. now destruct (n =? 1)%nat. Qed.

Lemma bdim_1_l (n : nat) : bdim 1 n = Some n.
Proof.
  unfold bdim. destruct (1 =? n)%nat eqn:E; [|reflexivity].
  apply Nat.eqb_eq in E. now subst.
Qed.

Lemma bdim_comm (a b : nat) : bdim a b = bdim b a.
Proof.
  unfold bdim. destruct (a =? b)%nat eqn:E.
  - apply Nat.eqb_eq in E. subst. now rewrite Nat.eqb_refl.
  - rewrite (Nat.eqb_sym b a), E.
    destruct (a =? 1)%nat eqn:Ea, (b =? 1)%nat eqn:Eb; try reflexivity.
    apply Nat.eqb_eq in Ea, Eb. subst. discriminate.
Qed.

Lemma bidx_bdim (a b r i : nat) :
  bdim a b = Some r -> bidx a (bidx r i) = bidx a i.
Proof.
  unfold bdim, bidx.
  destruct (a =? 1)%nat eqn:Ea; [reflexivity|].
  destruct (r =? 1)%nat eqn:Er; [|reflexivity].
  apply Nat.eqb_eq in Er. subst r.
  destruct (a =? b)%nat eqn:E.
  - intros H. injection H as ->. discriminate.
  - destruct (b =? 1)%nat; intros H; [injection H as ->|]; discriminate.
Qed.





Lemma sqrt3_gt_1 : 1 < sqrt 3.
Proof. rewrite <- sqrt_1 at 1. apply sqrt_lt_1; lra. Qed.

(** C2, at the Matern kernel. With the kernel vector [[0, 0, 0]], the
    wavelengths [[0, 1]] and the uncertainties [[1, 1]], [construct_covariance]
    of [Matern] returns a 2x2 matrix with [C[0,1] = (1 - sqrt 3) exp (sqrt 3)],
    which is negative, and [C[1,0] = (1 + sqrt 3) exp (- sqrt 3)], which is
    positive: the matrix is not symmetric. *)
Theorem Matern_covariance_not_symmetric :
  exists C,
    construct_covariance
      (smooth_example Matern [0; 0; 0] [0; 1] [1; 1] (Scalar 1)) = Ok C
    /\ sh0 C = 2%nat /\ sh1 C = 2%nat
    /\ ent C 0 1 = (1 - sqrt 3) * exp (sqrt 3)
    /\ ent C 1 0 = (1 + sqrt 3) * exp (- sqrt 3)
    /\ ent C 0 1 < 0 < ent C 1 0
    /\ ~ symmetric C.
Proof.
  unfold smooth_example, init, update_params. cbn.
  unfold construct_covariance, base_construct_covariance. cbn.
  unfold construct_kernel, Matern_construct_kernel, smooth_params. cbn.
  rewrite Reqb_refl. cbn.
  eexists. split; [reflexivity|]. unfold symmetric. cbn. rewrite exp_0, sqrt_1.
  replace (sqrt 3 * (0 - 1) / 1) with (- sqrt 3) by field.
  replace (sqrt 3 * (1 - 0) / 1) with (sqrt 3) by field.
  rewrite Ropp_involutive.
  pose proof sqrt3_gt_1. pose proof (exp_pos (sqrt 3)).
  pose proof (exp_pos (- sqrt 3)).
  repeat split; try reflexivity; try nra.
  intros [_ Hsym]. specialize (Hsym 0%nat 1%nat). cbn in Hsym.
  replace (sqrt 3 * (0 - 1) / 1) with (- sqrt 3) in Hsym by field.
  replace (sqrt 3 * (1 - 0) / 1) with (sqrt 3) in Hsym by field.
  rewrite Ropp_involutive in Hsym. nra.
Qed.

(** ** The kernels and the flux scaling *)

Lemma bdim_refl (n : nat) : bdim n n = Some n.
Proof. unfold bdim. now rewrite Nat.eqb_refl. Qed.

Lemma bidx_lt (n i : nat) : (i < n)%nat -> bidx n i = i.
Proof.
  unfold bidx. destruct (n =? 1)%nat eqn:E; [|reflexivity].
  apply Nat.eqb_eq in E. lia.
Qed.

(** [a[:, None] * A * b[None, :]] on arrays of matching lengths. *)
Lemma scale_rows_cols_entries (a b : vec) (A : arr2) :
  length a = sh0 A -> length b = sh1 A ->
  exists B, scale_rows_cols a A b = Ok B
    /\ sh0 B = sh0 A /\ sh1 B = sh1 A
    /\ forall i j, (i < sh0 A)%nat -> (j < sh1 A)%nat ->
         ent B i j = nth i a 0 * ent A i j * nth j b 0.
Proof.
  intros Ha Hb. unfold scale_rows_cols, bop. cbn.
  rewrite Ha, Hb, bdim_refl, bdim_1_l. cbn. rewrite bdim_1_r, bdim_refl. cbn.
  eexists. split; [reflexivity|]. cbn. repeat split.
  intros i j Hi Hj.
  rewrite !(bidx_lt (sh0 A) i), !(bidx_lt (sh1 A) j) by assumption.
  reflexivity.
Qed.

(** The block [K(xstar, x)] of a smooth kernel has one row for each element
    of [xstar] and one column for each element of [x]. *)
Lemma smooth_kernel_shape (st : GP) (x xstar : vec) (K : arr2) :
  construct_kernel st (Some x) (Some xstar) = Ok K ->
  sh0 K = length xstar /\ sh1 K = length x.
Proof.
  unfold construct_kernel, ExpSquared_construct_kernel, Matern_construct_kernel.
  destruct (variant st); try discriminate;
    (destruct (smooth_params st) as [[[s asq] lsq]|]; cbn; [|discriminate];
     unfold bop; cbn; rewrite bdim_1_r, bdim_1_l; cbn;
     intros H; injection H as <-; split; reflexivity).
Qed.

Lemma ExpSquared_kernel_entries (st : GP) (s asq lsq : R) (x xstar : vec) :
  variant st = ExpSquared ->
  _params st = Some (SmoothParams s asq lsq) ->
  exists K, construct_kernel st (Some x) (Some xstar) = Ok K
    /\ forall i j, (i < length xstar)%nat -> (j < length x)%nat ->
         ent K i j
         = asq * exp ((- ((nth i xstar 0 - nth j x 0) ^ 2)) / (2 * lsq)).
Proof.
  intros Hv Hp.
  unfold construct_kernel, ExpSquared_construct_kernel, smooth_params.
  rewrite Hv, Hp. cbn. unfold bop. cbn. rewrite bdim_1_r, bdim_1_l. cbn.
  eexists. split; [reflexivity|]. cbn. intros i j Hi Hj.
  now rewrite (bidx_lt _ _ Hi), (bidx_lt _ _ Hj).
Qed.


(** [construct_covariance] of a smooth kernel on [N] points with a flux
    vector that is not all ones: [flux_i * K_ij * flux_j], plus the noise on
    the diagonal. *)
Lemma construct_covariance_flux_scaling (st : GP) (w f d : vec) (K : arr2) :
  variant st <> PhotOutlier ->
  _wave st = Some w -> _flux st = Vector f -> any_ne_1 (Vector f) = true ->
  length f = length w ->
  construct_kernel st (Some w) (Some w) = Ok K ->
  construct_diagonal st None = Ok (Vector d) -> length d = length w ->
  exists C, construct_covariance st = Ok C
    /\ forall i j, (i < length w)%nat -> (j < length w)%nat ->
         ent C i j
         = nth i f 0 * ent K i j * nth j f 0
           + (if (i =? j)%nat then nth i d 0 else 0).
Proof.
  intros Hv Hw Hf Hany Hlen HK Hd Hdl.
  destruct (smooth_kernel_shape _ _ _ _ HK) as [H0 H1].
  destruct (scale_rows_cols_entries f f K) as (B & HB & HB0 & HB1 & Hent);
    try congruence.
  unfold construct_covariance, base_construct_covariance.
  destruct (variant st); try contradiction;
    rewrite Hw, HK, Hf, Hany; cbn [bind sv_array];
    unfold diag_indices_from; rewrite H0, H1, Nat.eqb_refl; cbn [bind];
    rewrite HB; cbn [bind]; rewrite Hd; cbn [bind diag_iadd];
    rewrite Hdl, Nat.eqb_refl; cbn [orb];
    (eexists; split; [reflexivity|]; cbn [ent]; intros i j Hi Hj;
     rewrite Hent by lia;
     destruct (i =? j)%nat; cbn [andb];
     [ apply Nat.ltb_lt in Hi as Hi'; rewrite Hi', bidx_lt by lia; reflexivity
     | ring ]).
Qed.

(** [construct_covariance_cross] of a smooth kernel:
    [influx_i * K_ij * flux_j], [i] running over the query points and [j]
    over the training points. *)
Lemma construct_covariance_cross_flux_scaling (st : GP) (w f iw fi : vec)
    (K : arr2) :
  variant st <> PhotOutlier ->
  _wave st = Some w -> _flux st = Vector f -> any_ne_1 (Vector f) = true ->
  length f = length w -> length fi = length iw ->
  construct_kernel st (Some w) (Some iw) = Ok K ->
  exists C, construct_covariance_cross st (Some iw) (Some (Vector fi)) = Ok C
    /\ forall i j, (i < length iw)%nat -> (j < length w)%nat ->
         ent C i j = nth i fi 0 * ent K i j * nth j f 0.
Proof.
  intros Hv Hw Hf Hany Hlen Hleni HK.
  destruct (smooth_kernel_shape _ _ _ _ HK) as [H0 H1].
  destruct (scale_rows_cols_entries fi f K) as (B & HB & HB0 & HB1 & Hent);
    try congruence.
  unfold construct_covariance_cross, base_construct_covariance_cross.
  destruct (variant st); try contradiction;
    rewrite Hw, HK, Hf, Hany; cbn [bind sv_array assert_influx sv_len not_none];
    rewrite Hleni, Nat.eqb_refl; cbn [bind py_assert];
    rewrite HB; (eexists; split; [reflexivity|]; intros i j Hi Hj;
                 apply Hent; lia).
Qed.

(** [construct_covariance_test] before its last statement:
    [influx_i * K_ij * inwave_j]. The second factor is the wavelength of the
    query point [j], where the other two builders have its flux. *)
Lemma covariance_test_scaling (st : GP) (f iw fi : vec) (K : arr2) :
  _flux st = Vector f -> any_ne_1 (Vector f) = true ->
  length fi = length iw ->
  construct_kernel st (Some iw) (Some iw) = Ok K ->
  exists S1, covariance_test_scaled st (Some iw) (Some (Vector fi))
             = Ok (S1, length iw)
    /\ forall i j, (i < length iw)%nat -> (j < length iw)%nat ->
         ent S1 i j = nth i fi 0 * ent K i j * nth j iw 0.
Proof.
  intros Hf Hany Hleni HK.
  destruct (smooth_kernel_shape _ _ _ _ HK) as [H0 H1].
  destruct (scale_rows_cols_entries fi iw K) as (B & HB & HB0 & HB1 & Hent);
    try congruence.
  unfold covariance_test_scaled.
  rewrite HK, Hf, Hany. cbn [bind sv_array assert_influx sv_len not_none].
  unfold diag_indices_from. rewrite H0, H1, Nat.eqb_refl. cbn [bind py_assert].
  rewrite Hleni, Nat.eqb_refl. cbn [bind py_assert]. rewrite HB. cbn [bind].
  eexists. split; [reflexivity|]. intros i j Hi Hj. apply Hent; lia.
Qed.

(** [construct_covariance] of a smooth kernel when the flux is 1 or a vector
    of ones: the kernel, plus the noise on the diagonal. *)
Lemma construct_covariance_unit_flux (st : GP) (w d : vec) (K : arr2) :
  variant st <> PhotOutlier ->
  _wave st = Some w -> any_ne_1 (_flux st) = false ->
  construct_kernel st (Some w) (Some w) = Ok K ->
  construct_diagonal st None = Ok (Vector d) -> length d = length w ->
  exists C, construct_covariance st = Ok C
    /\ sh0 C = length w /\ sh1 C = length w
    /\ forall i j, (i < length w)%nat -> (j < length w)%nat ->
         ent C i j = ent K i j + (if (i =? j)%nat then nth i d 0 else 0).
Proof.
  intros Hv Hw Hany HK Hd Hdl.
  destruct (smooth_kernel_shape _ _ _ _ HK) as [H0 H1].
  unfold construct_covariance, base_construct_covariance.
  destruct (variant st); try contradiction;
    rewrite Hw, HK, Hany; cbn [bind];
    unfold diag_indices_from; rewrite H0, H1, Nat.eqb_refl; cbn [bind];
    rewrite Hd; cbn [bind diag_iadd];
    rewrite Hdl, Nat.eqb_refl; cbn [orb];
    (eexists; split; [reflexivity|]; cbn [ent sh0 sh1];
     split; [assumption|]; split; [assumption|]; intros i j Hi Hj;
     destruct (i =? j)%nat; cbn [andb];
     [ apply Nat.ltb_lt in Hi as Hi'; rewrite Hi', bidx_lt by lia; reflexivity
     | ring ]).
Qed.

Lemma smooth_diagonal (st : GP) (s asq lsq : R) (sigma : vec) :
  variant st <> PhotOutlier ->
  _params st = Some (SmoothParams s asq lsq) -> _sigma st = Some sigma ->
  construct_diagonal st None = Ok (Vector (vadd_scalar (vsq sigma) (s ^ 2))).
Proof.
  intros Hv Hp Hs. unfold construct_diagonal, smooth_params.
  destruct (variant st); try contradiction; now rewrite Hp, Hs.
Qed.

Lemma nth_noise (sigma : vec) (x : R) (i : nat) :
  (i < length sigma)%nat ->
  nth i (vadd_scalar (vsq sigma) x) 0 = nth i sigma 0 ^ 2 + x.
Proof.
  intros Hi. unfold vadd_scalar, vsq. rewrite map_map.
  rewrite (nth_indep _ 0 ((fun y => y ^ 2 + x) 0))
    by (now rewrite length_map).
  now rewrite (map_nth (fun y => y ^ 2 + x)).
Qed.

Lemma exp_nonpos_le_1 (y : R) : y <= 0 -> exp y <= 1.
Proof.
  intros [Hy | ->]; [|rewrite exp_0; lra].
  rewrite <- exp_0. left. now apply exp_increasing.
Qed.

(** The squared-exponential kernel with flux 1 on [N] points: every entry of
    the covariance matrix lies within the amplitude [asq] of
    [diag(sigma_i^2 + s^2)], so that the matrix tends to it as the amplitude
    tends to 0. *)
Lemma ExpSquared_covariance_near_diagonal (st : GP) (s asq lsq : R)
    (w sigma : vec) :
  variant st = ExpSquared ->
  _params st = Some (SmoothParams s asq lsq) ->
  _wave st = Some w -> _sigma st = Some sigma -> length sigma = length w ->
  any_ne_1 (_flux st) = false ->
  0 <= asq -> 0 < lsq ->
  exists C, construct_covariance st = Ok C
    /\ forall i j, (i < length w)%nat -> (j < length w)%nat ->
         0 <= ent C i j
              - (if (i =? j)%nat then nth i sigma 0 ^ 2 + s ^ 2 else 0)
           <= asq.
Proof.
  intros Hv Hp Hw Hs Hlen Hany Ha Hl.
  destruct (ExpSquared_kernel_entries st s asq lsq w w Hv Hp) as (K & HK & HKe).
  assert (Hv' : variant st <> PhotOutlier) by (rewrite Hv; discriminate).
  pose proof (smooth_diagonal st s asq lsq sigma Hv' Hp Hs) as Hd.
  destruct (construct_covariance_unit_flux st w _ K Hv' Hw Hany HK Hd)
    as (C & HC & _ & _ & HCe).
  { unfold vadd_scalar, vsq. now rewrite !length_map. }
  exists C. split; [exact HC|]. intros i j Hi Hj.
  rewrite (HCe i j Hi Hj), (HKe i j Hi Hj).
  set (e := exp (- (nth i w 0 - nth j w 0) ^ 2 / (2 * lsq))).
  assert (He : 0 < e <= 1).
  { split; [apply exp_pos|]. apply exp_nonpos_le_1.
    assert (0 < / (2 * lsq)) by (apply Rinv_0_lt_compat; lra).
    assert (0 <= (nth i w 0 - nth j w 0) ^ 2) by (apply pow2_ge_0).
    unfold Rdiv. nra. }
  destruct (i =? j)%nat.
  - rewrite nth_noise by lia. nra.
  - nra.
Qed.


(** C5, at the Matern kernel. With jitter [s = exp 0 = 1], one wavelength and
    the uncertainty 1, [construct_covariance] of [Matern] returns [[3]] for
    every value [k1] of the amplitude parameter, where
    [diag(sigma^2 + s^2)] is [[2]]: the matrix does not tend to the
    diagonal one as the amplitude tends to 0. *)
Theorem Matern_covariance_ignores_amplitude (k1 : R) :
  rmap to_matrix
       (construct_covariance
          (smooth_example Matern [0; k1; 0] [0] [1] (Scalar 1)))
  = Ok [[3]]
  /\ vadd_scalar (vsq [1]) (exp 0 ^ 2) = [2].
Proof.
  split.
  - unfold smooth_example, init, update_params. cbn.
    unfold construct_covariance, base_construct_covariance. cbn.
    unfold construct_kernel, Matern_construct_kernel, smooth_params. cbn.
    rewrite Reqb_refl. cbn. unfold to_matrix. cbn. rewrite exp_0.
    do 3 f_equal.
    replace (sqrt 3 * (0 - 0) / sqrt 1) with 0 by (unfold Rdiv; ring).
    rewrite Ropp_0, exp_0. ring.
  - cbn. rewrite exp_0. f_equal. ring.
Qed.

(** C6, at [construct_covariance_test]. With the training flux [[2]], the
    query wavelength [[3]] and the query flux [[5]], the kernel term
    [K = 1] is scaled to [5 * 1 * 3], the query flux times the query
    wavelength, where the query flux on both sides gives [5 * 1 * 5]; the
    builder then raises, because [construct_diagonal] of the smooth kernels
    takes no [test]. *)
Theorem covariance_test_scales_by_wavelength :
  let st := smooth_example ExpSquared [0; 0; 0] [0] [1] (Vector [2]) in
  rmap (fun Sd => to_matrix (fst Sd))
       (covariance_test_scaled st (Some [3]) (Some (Vector [5])))
  = Ok [[5 * 1 * 3]]
  /\ construct_covariance_test st (Some [3]) (Some (Vector [5]))
     = Raise TypeError.
Proof.
  cbn zeta. unfold smooth_example, init, update_params. cbn.
  unfold construct_covariance_test, covariance_test_scaled. cbn.
  unfold construct_kernel, ExpSquared_construct_kernel, smooth_params. cbn.
  rewrite (Reqb_neq 2 1) by lra. cbn.
  split; [|reflexivity].
  unfold to_matrix. cbn. rewrite exp_0. do 3 f_equal.
  replace (- (3 - 3) ^ 2 / (2 * 1)) with 0 by field. rewrite exp_0. ring.
Qed.

(** ** The cache *)

Lemma rmap_ok_inv {A B : Type} (f : A -> B) (r : result A) (b : B) :
  rmap f r = Ok b -> exists a, r = Ok a /\ f a = b.
Proof.
  destruct r as [a|e]; cbn; [|discriminate].
  intros H. injection H as <-. now exists a.
Qed.

(** [update_data] never turns [data_clean] from false to true. *)
Lemma update_data_downgrades (st : GP) (w s : option vec)
    (f : option scalar_or_vec) :
  data_clean (update_data st w s f) = true -> data_clean st = true.
Proof.
  unfold update_data. cbn. intros H. now apply andb_true_iff in H as [H _].
Qed.

(** [update_data] with data equal to the cached data, or with none, leaves
    the object as it is. *)
Lemma update_data_same (st : GP) (w s : option vec) (f : option scalar_or_vec) :
  (w = None \/ w = _wave st) -> (s = None \/ s = _sigma st) ->
  (f = None \/ f = Some (_flux st)) ->
  data_clean st = true ->
  update_data st w s f = st.
Proof.
  intros Hw Hs Hf Hc. destruct st as [v sto k p pc dc wv sg fl F ld n].
  cbn in *. subst dc. unfold update_data. cbn.
  assert (Ew : match w with Some w0 => array_equal_opt w0 wv | None => true end
               = true
               /\ match w with Some w0 => Some w0 | None => wv end = wv).
  { destruct Hw as [-> | ->]; [now split|].
    destruct wv; cbn; [now rewrite vec_eqb_refl | now split]. }
  assert (Es : match s with Some s0 => array_equal_opt s0 sg | None => true end
               = true
               /\ match s with Some s0 => Some s0 | None => sg end = sg).
  { destruct Hs as [-> | ->]; [now split|].
    destruct sg; cbn; [now rewrite vec_eqb_refl | now split]. }
  assert (Ef : match f with Some f0 => sv_eqb f0 fl | None => true end = true
               /\ match f with Some f0 => f0 | None => fl end = fl).
  { destruct Hf as [-> | ->]; [now split|]. now rewrite sv_eqb_refl. }
  destruct Ew as [-> ->], Es as [-> ->], Ef as [-> ->]. reflexivity.
Qed.

(** [update_params] assigns to [params_clean] what the comparison gives: it
    turns the flag from false to true when the kernel vector yields
    parameters that compare equal to the cached ones. *)
Lemma update_params_upgrades (st : GP) (p : params) :
  kernel_to_params (variant st) (store st) (kernel st) = Ok p ->
  params_equal (store st) p (_params st) = true ->
  update_params st = (Ok tt, set_params st true (Some p)).
Proof.
  intros Hk Hp. unfold update_params. now rewrite Hk, Hp.
Qed.

Section Cache.

Context {L : LinAlg}.

Lemma compute_step (st : GP) (w s : option vec) (f : option scalar_or_vec)
    (force : bool) (p : params) :
  kernel_to_params (variant st) (store st) (kernel st) = Ok p ->
  let st2 :=
    update_data
      (set_params st (params_equal (store st) p (_params st)) (Some p)) w s f in
  compute st w s f force
  = if params_clean st2 && data_clean st2 && negb force
    then (Ok tt, st2)
    else rebuild st2.
Proof. intros Hp. unfold compute, update_params. now rewrite Hp. Qed.

Lemma rebuild_returns (st : GP) (M : matrix) (F : factor) :
  rmap to_matrix (construct_covariance st) = Ok M ->
  cho_factor M = Ok F ->
  isfinite (log_det_of F) = true ->
  rebuild st
  = (Ok tt,
     set_clean (set_factor (count_factorization st) (Some F)
                           (Some (log_det_of F)))).
Proof.
  unfold rebuild.
  destruct (construct_covariance st) as [S|]; cbn; [|discriminate].
  intros H. injection H as ->. now intros -> ->.
Qed.

(** A rebuild whose log-determinant is not finite raises; it has stored the
    factor and the log-determinant, and has not touched the two flags. *)
Lemma rebuild_nonfinite (st : GP) (M : matrix) (F : factor) :
  rmap to_matrix (construct_covariance st) = Ok M ->
  cho_factor M = Ok F ->
  isfinite (log_det_of F) = false ->
  rebuild st
  = (Raise AssertionError,
     set_factor (count_factorization st) (Some F) (Some (log_det_of F))).
Proof.
  unfold rebuild.
  destruct (construct_covariance st) as [S|]; cbn; [|discriminate].
  intros H. injection H as ->. now intros -> ->.
Qed.

(** What a rebuild leaves untouched, however it ends. *)
Lemma rebuild_frame (st : GP) :
  let st' := snd (rebuild st) in
  variant st' = variant st /\ store st' = store st /\ kernel st' = kernel st
  /\ _params st' = _params st /\ _wave st' = _wave st
  /\ _sigma st' = _sigma st /\ _flux st' = _flux st.
Proof.
  unfold rebuild. destruct (construct_covariance st); cbn; [|now repeat split].
  destruct (cho_factor _); cbn; [|now repeat split].
  destruct (isfinite _); cbn; now repeat split.
Qed.

(** A rebuild that returns has set both flags. *)
Lemma rebuild_ok_clean (st st' : GP) :
  rebuild st = (Ok tt, st') ->
  params_clean st' = true /\ data_clean st' = true.
Proof.
  unfold rebuild. destruct (construct_covariance st); [|discriminate].
  destruct (cho_factor _); [|discriminate].
  destruct (isfinite _); [|discriminate].
  intros H. injection H as <-. now split.
Qed.

(** After a call of [compute] that returns, both flags are set and the cached
    parameters are those of the kernel vector. *)
Lemma compute_ok_inv (st st1 : GP) (w s : option vec)
    (f : option scalar_or_vec) (force : bool) :
  compute st w s f force = (Ok tt, st1) ->
  params_clean st1 = true /\ data_clean st1 = true
  /\ exists p, _params st1 = Some p
       /\ kernel_to_params (variant st1) (store st1) (kernel st1) = Ok p.
Proof.
  unfold compute, update_params.
  destruct (kernel_to_params (variant st) (store st) (kernel st)) as [p|] eqn:Hk;
    [|discriminate].
  remember (update_data _ w s f) as st2 eqn:E2.
  assert (H2 : variant st2 = variant st /\ store st2 = store st
               /\ kernel st2 = kernel st /\ _params st2 = Some p)
    by (subst st2; now repeat split).
  clear E2.
  destruct H2 as (Hv & Hs & Hkk & Hp).
  destruct (params_clean st2 && data_clean st2 && negb force) eqn:Hc.
  - intros H. injection H as <-.
    apply andb_true_iff in Hc as [Hc _]. apply andb_true_iff in Hc as [Hpc Hdc].
    repeat split; try assumption. exists p. now rewrite Hv, Hs, Hkk.
  - intros H. destruct (rebuild_ok_clean _ _ H) as [Hpc Hdc].
    pose proof (rebuild_frame st2) as Hf. rewrite H in Hf. cbn in Hf.
    destruct Hf as (Hv' & Hs' & Hk' & Hp' & _).
    repeat split; try assumption. exists p.
    now rewrite Hv', Hs', Hk', Hp', Hv, Hs, Hkk.
Qed.

(** On a clean cache whose parameters [np.array_equal] can compare,
    [compute] with the cached data or with none, and without [force],
    returns and leaves the object as it is. *)
Lemma compute_clean_noop (st : GP) (p : params) (w s : option vec)
    (f : option scalar_or_vec) :
  params_clean st = true -> data_clean st = true ->
  _params st = Some p ->
  kernel_to_params (variant st) (store st) (kernel st) = Ok p ->
  params_regular (store st) p = true ->
  (w = None \/ w = _wave st) -> (s = None \/ s = _sigma st) ->
  (f = None \/ f = Some (_flux st)) ->
  compute st w s f false = (Ok tt, st).
Proof.
  intros Hpc Hdc Hp Hk Hr Hw Hs Hf.
  rewrite (compute_step _ _ _ _ _ p Hk). cbn zeta.
  rewrite Hp, params_equal_refl, Hr.
  assert (E : set_params st true (Some p) = st).
  { destruct st. cbn in *. now subst. }
  rewrite E, update_data_same by assumption.
  now rewrite Hpc, Hdc.
Qed.

End Cache.

(** ** The factorization of a 1x1 matrix *)

Lemma one_point_eq (v : kernel_variant) (kern : vec) (sigma : R) :
  one_point v kern sigma
  = mkGP v [[0; 0; 0]; kern] 1 None false false (Some [0]) (Some [sigma])
         (Scalar 1) None None 0.
Proof. reflexivity. Qed.

Lemma factorize_1x1 (a : R) :
  0 < a -> Cholesky.factorize true [[a]] = Ok ([[sqrt a]], false).
Proof.
  intros Ha. unfold Cholesky.factorize. cbn.
  unfold Cholesky.pivot, Cholesky.entry. cbn. rewrite Rminus_0_r.
  destruct (Rlt_dec 0 a); [|contradiction]. reflexivity.
Qed.

Lemma factorize_unchecked_1x1 (a : R) :
  Cholesky.factorize false [[a]] = Ok ([[sqrt a]], false).
Proof.
  unfold Cholesky.factorize. cbn.
  unfold Cholesky.pivot, Cholesky.entry. cbn. now rewrite Rminus_0_r.
Qed.

Lemma log_det_1x1 (u : R) (b : bool) :
  0 < u -> log_det_of ([[u]], b) = Finite (2 * ln u).
Proof.
  intros Hu. unfold log_det_of, np_log. cbn.
  destruct (Rlt_dec 0 u); [|contradiction]. cbn. now rewrite Rplus_0_l.
Qed.

Lemma log_det_1x1_nonfinite (u : R) (b : bool) :
  u <= 0 -> log_det_of ([[u]], b) = NonFinite.
Proof.
  intros Hu. unfold log_det_of, np_log. cbn.
  destruct (Rlt_dec 0 u); [lra|]. reflexivity.
Qed.

Lemma solve_1x1 (u x : R) (b : bool) :
  u <> 0 -> Cholesky.solve ([[u]], b) [x] = Ok [x / (u * u)].
Proof.
  intros Hu. unfold Cholesky.solve, Cholesky.solve_vec. cbn.
  unfold Cholesky.entry. cbn. do 2 f_equal. now field.
Qed.

Lemma sqrt3_sq : sqrt 3 * sqrt 3 = 3.
Proof. apply sqrt_sqrt. lra. Qed.

Lemma sqrt3_ne_0 : sqrt 3 <> 0.
Proof. pose proof sqrt3_sq as H. intros H0. rewrite H0 in H. lra. Qed.

Lemma exp1_ne_exp0 : exp 1 <> exp 0.
Proof. intros H. apply exp_inv in H. lra. Qed.

Lemma astype_int_0 : astype_int 0 = 0%Z.
Proof. apply (astype_int_IZR 0). Qed.

(** ** The engines on one point *)

Lemma ExpSquared_one_point_cov (sto : list vec) (k : nat) (s : R)
    (pc dc : bool) (F : option factor) (ld : option xfloat) (n : nat) :
  rmap to_matrix
       (construct_covariance
          (mkGP ExpSquared sto k (Some (SmoothParams s (exp 0) (exp 0))) pc dc
                (Some [0]) (Some [1]) (Scalar 1) F ld n))
  = Ok [[2 + s ^ 2]].
Proof.
  unfold construct_covariance, base_construct_covariance. cbn.
  unfold construct_kernel, ExpSquared_construct_kernel, smooth_params. cbn.
  rewrite Reqb_refl. cbn. unfold to_matrix. cbn. rewrite exp_0.
  do 3 f_equal.
  replace (- (0 - 0) ^ 2 / (2 * 1)) with 0 by field. rewrite exp_0. ring.
Qed.

Lemma PhotOutlier_one_point_cov (sigma amp : R) (pc dc : bool)
    (F : option factor) (ld : option xfloat) (n : nat) :
  rmap to_matrix
       (construct_covariance
          (mkGP PhotOutlier [[0; 0; 0]; [amp; 0]] 1 (Some outlier_params) pc dc
                (Some [0]) (Some [sigma]) (Scalar 1) F ld n))
  = Ok [[sigma ^ 2 + amp ^ 2]].
Proof.
  unfold construct_covariance, PhotOutlier_construct_covariance. cbn.
  rewrite Reqb_refl. cbn. rewrite astype_int_0. cbn.
  unfold to_matrix. cbn. do 3 f_equal. ring.
Qed.

Lemma engine_first_compute :
  @compute Cholesky.linalg (one_point ExpSquared [0; 0; 0] 1) None None None
           false
  = (Ok tt, engine_built).
Proof.
  rewrite one_point_eq.
  rewrite (compute_step _ _ _ _ _ smooth_params_0) by reflexivity.
  cbn.
  assert (H3 : 0 < sqrt 3) by (apply sqrt_lt_R0; lra).
  erewrite (@rebuild_returns Cholesky.linalg _ [[3]] ([[sqrt 3]], false)).
  - rewrite log_det_1x1 by assumption. reflexivity.
  - etransitivity; [apply ExpSquared_one_point_cov|].
    rewrite exp_0. do 3 f_equal. ring.
  - apply factorize_1x1. lra.
  - now rewrite log_det_1x1.
Qed.

Lemma engine_write : kernel_setitem engine_built 0 1 = (Ok tt, engine_written).
Proof. reflexivity. Qed.

Lemma engine_update : update_params engine_written = (Ok tt, engine_updated).
Proof.
  unfold update_params. cbn. now rewrite (Reqb_neq _ _ exp1_ne_exp0).
Qed.

Lemma engine_second_compute :
  @compute Cholesky.linalg engine_updated None None None false
  = (Ok tt, engine_stale).
Proof.
  rewrite (compute_step _ _ _ _ _ smooth_params_1) by reflexivity. cbn.
  now rewrite !Reqb_refl.
Qed.

Lemma engine_built_clean :
  @compute Cholesky.linalg engine_built None None None false
  = (Ok tt, engine_built).
Proof.
  apply (compute_clean_noop engine_built smooth_params_0);
    try reflexivity; now left.
Qed.

Lemma outlier_first_compute :
  @compute Cholesky.linalg (one_point PhotOutlier [2; 0] 1) None None None
           false
  = (Ok tt, outlier_built).
Proof.
  rewrite one_point_eq.
  rewrite (compute_step _ _ _ _ _ outlier_params) by reflexivity.
  cbn.
  assert (H5 : 0 < sqrt 5) by (apply sqrt_lt_R0; lra).
  erewrite (@rebuild_returns Cholesky.linalg _ [[5]] ([[sqrt 5]], false)).
  - rewrite log_det_1x1 by assumption. reflexivity.
  - etransitivity; [apply PhotOutlier_one_point_cov|]. do 3 f_equal. ring.
  - apply factorize_1x1. lra.
  - now rewrite log_det_1x1.
Qed.

Lemma outlier_write :
  kernel_setitem outlier_built 0 3 = (Ok tt, outlier_written).
Proof. reflexivity. Qed.

Lemma outlier_second_compute :
  @compute Cholesky.linalg outlier_written None None None false
  = (Ok tt, outlier_written).
Proof.
  apply (compute_clean_noop outlier_written outlier_params);
    try reflexivity; now left.
Qed.

Lemma outlier_failed_compute :
  @compute Cholesky.unchecked (one_point PhotOutlier [0; 0] 0) None None None
           false
  = (Raise AssertionError, outlier_failed).
Proof.
  rewrite one_point_eq.
  rewrite (compute_step _ _ _ _ _ outlier_params) by reflexivity. cbn.
  erewrite (@rebuild_nonfinite Cholesky.unchecked _ [[0]] ([[sqrt 0]], false)).
  - rewrite log_det_1x1_nonfinite by (rewrite sqrt_0; lra). reflexivity.
  - etransitivity; [apply PhotOutlier_one_point_cov|]. do 3 f_equal. ring.
  - apply factorize_unchecked_1x1.
  - rewrite log_det_1x1_nonfinite by (rewrite sqrt_0; lra). reflexivity.
Qed.

(** ** Staleness *)

(** After any call of [update_params] that cached parameters which
    [np.array_equal] can compare, a [compute] without data and without
    [force] takes the cheap path as soon as [data_clean] holds: the factor it
    leaves in place is the one it found, whatever kernel vector that was
    built from. *)
Lemma compute_after_update_params {L : LinAlg} (st : GP) (p : params) :
  kernel_to_params (variant st) (store st) (kernel st) = Ok p ->
  params_regular (store st) p = true ->
  data_clean st = true ->
  let st1 := snd (update_params st) in
  compute st1 None None None false = (Ok tt, set_params st true (Some p)).
Proof.
  intros Hk Hr Hd. unfold update_params. rewrite Hk. cbn [snd].
  rewrite (compute_step _ _ _ _ _ p) by exact Hk.
  cbn [_params set_params store]. rewrite params_equal_refl, Hr.
  unfold update_data. cbn. rewrite Hd. cbn.
  destruct st. cbn in *. now subst.
Qed.

(** C1, at a call of [update_params] between two calls of [compute]. A
    squared-exponential engine on one point is computed with the kernel
    vector [[0, 0, 0]] (covariance [[3]]); its caller writes
    [gp.kernel[0] = 1.0] and calls [update_params], which leaves
    [params_clean] false; the next [compute] returns on the cheap path with
    both flags true, no further factorization and the factor of [[3]] still
    cached, for a kernel vector whose covariance is [[2 + e^2]]. The flag has
    gone from false to true in [update_params], outside a rebuild. *)
Theorem update_params_serves_stale_factor :
  let L := Cholesky.linalg in
  let r1 := compute (one_point ExpSquared [0; 0; 0] 1) None None None false in
  let r2 := kernel_setitem (snd r1) 0 1 in
  let r3 := update_params (snd r2) in
  let r4 := compute (snd r3) None None None false in
  (fst r1 = Ok tt /\ factorizations (snd r1) = 1%nat
   /\ rmap to_matrix (construct_covariance (snd r1)) = Ok [[3]])
  /\ (fst r2 = Ok tt /\ kernel_buf (snd r2) = [1; 0; 0])
  /\ (fst r3 = Ok tt /\ params_clean (snd r3) = false)
  /\ (fst r4 = Ok tt
      /\ params_clean (snd r4) = true /\ data_clean (snd r4) = true
      /\ factorizations (snd r4) = 1%nat
      /\ factorized_Sigma (snd r4) = factorized_Sigma (snd r1)
      /\ rmap to_matrix (construct_covariance (snd r4)) = Ok [[2 + exp 1 ^ 2]]
      /\ 2 + exp 1 ^ 2 <> 3).
Proof.
  cbn zeta. rewrite engine_first_compute. cbn [fst snd].
  rewrite engine_write. cbn [fst snd].
  rewrite engine_update. cbn [fst snd].
  rewrite engine_second_compute. cbn [fst snd].
  repeat split; try reflexivity.
  - unfold engine_built. etransitivity; [apply ExpSquared_one_point_cov|].
    rewrite exp_0. do 3 f_equal. ring.
  - apply ExpSquared_one_point_cov.
  - pose proof exp1_ne_exp0 as H. rewrite exp_0 in H.
    pose proof (exp_pos 1). nra.
Qed.

(** ** Cache hits and misses *)

Lemma firstn_app_skipn {A : Type} (a b : nat) (l : list A) :
  firstn a l ++ firstn b (skipn a l) = firstn (a + b) l.
Proof.
  revert l. induction a as [|a IH]; intros l; cbn; [reflexivity|].
  destruct l as [|x l]; cbn; [now rewrite firstn_nil|].
  now rewrite IH.
Qed.

Lemma odd_half (n : nat) :
  (2 * ((n - (if Nat.odd n then 1 else 0)) / 2)
   = n - (if Nat.odd n then 1 else 0))%nat.
Proof.
  destruct (Nat.odd n) eqn:E.
  - apply Nat.odd_spec in E as [m ->].
    replace (2 * m + 1 - 1)%nat with (m * 2)%nat by lia.
    rewrite Nat.div_mul by lia. lia.
  - assert (Ev : Nat.even n = true).
    { rewrite <- Nat.negb_odd, E. reflexivity. }
    apply Nat.even_spec in Ev as [m ->].
    replace (2 * m - 0)%nat with (m * 2)%nat by lia.
    rewrite Nat.div_mul by lia. lia.
Qed.

(** The parameters of a kernel vector can be compared by [np.array_equal]
    for the smooth kernels always, and for the outlier kernel exactly when
    the vector holds one outlier, with or without a jitter term. *)
Lemma kernel_to_params_regular (v : kernel_variant) (sto : list vec) (k : nat)
    (p : params) :
  kernel_to_params v sto k = Ok p ->
  params_regular sto p
  = match v with
    | PhotOutlier =>
        (length (nth k sto []) =? 2)%nat || (length (nth k sto []) =? 3)%nat
    | _ => true
    end.
Proof.
  unfold kernel_to_params, params_regular.
  destruct v.
  1,2: destruct (map exp _) as [|a [|b [|c [|d l]]]]; try discriminate;
       intros H; injection H as <-; reflexivity.
  intros H.
  set (kern := nth k sto []) in *.
  set (nout := ((length kern - (if Nat.odd (length kern) then 1 else 0)) / 2)%nat).
  assert (Hp : p = OutlierParams (if Nat.odd (length kern) then last kern 0 else 0)
                                 (View k nout (2 * nout)) (View k 0 nout)).
  { injection H as <-. reflexivity. }
  clear H. subst p. unfold params_asarray.
  assert (Hn : (2 * nout
                = length kern - (if Nat.odd (length kern) then 1 else 0))%nat)
    by apply odd_half.
  unfold read_view, slice. cbn [v_buf v_start v_stop]. fold kern.
  replace (nout - 0)%nat with nout by lia.
  replace (2 * nout - nout)%nat with nout by lia.
  cbn [skipn].
  assert (Hlo : length (firstn nout (skipn nout kern)) = nout).
  { rewrite length_firstn, length_skipn. destruct (Nat.odd (length kern)); lia. }
  assert (Ham : length (firstn nout kern) = nout).
  { rewrite length_firstn. destruct (Nat.odd (length kern)); lia. }
  assert (Hodd : Nat.odd (length kern) = true -> length kern <> 2%nat).
  { intros Ho E. rewrite E in Ho. discriminate. }
  assert (Hev : Nat.odd (length kern) = false -> length kern <> 3%nat).
  { intros Ho E. rewrite E in Ho. discriminate. }
  clearbody nout.
  destruct (firstn nout (skipn nout kern)) as [|l [|l' lo]];
    destruct (firstn nout kern) as [|a [|a' am]]; cbn [length] in Hlo, Ham;
    try lia; symmetry.
  - apply orb_false_iff. split; apply Nat.eqb_neq;
      destruct (Nat.odd (length kern)); lia.
  - apply orb_true_iff.
    destruct (Nat.odd (length kern)) eqn:Ho;
      [right | left]; apply Nat.eqb_eq; lia.
  - apply orb_false_iff. split; apply Nat.eqb_neq;
      destruct (Nat.odd (length kern)); lia.
Qed.

Lemma kernel_to_params_one_outlier (v : kernel_variant) (sto : list vec)
    (k : nat) (p : params) :
  kernel_to_params v sto k = Ok p ->
  (v = PhotOutlier ->
   length (nth k sto []) = 2%nat \/ length (nth k sto []) = 3%nat) ->
  params_regular sto p = true.
Proof.
  intros Hk Hv. rewrite (kernel_to_params_regular _ _ _ _ Hk).
  destruct v; try reflexivity.
  apply orb_true_iff.
  destruct (Hv eq_refl) as [E|E]; [left|right]; apply Nat.eqb_eq; exact E.
Qed.

(** After a call of [compute] that returns, a call with the same kernel
    vector, with the cached data or with none, and without [force], returns
    and changes nothing: no factorization, the same factor, log-determinant
    and flags. For the outlier kernel this needs a kernel vector of one
    outlier, that is of length 2 or 3. *)
Lemma compute_twice_noop {L : LinAlg} (st st1 : GP) (w s w' s' : option vec)
    (f f' : option scalar_or_vec) (force : bool) :
  compute st w s f force = (Ok tt, st1) ->
  (variant st1 = PhotOutlier ->
   length (kernel_buf st1) = 2%nat \/ length (kernel_buf st1) = 3%nat) ->
  (w' = None \/ w' = _wave st1) -> (s' = None \/ s' = _sigma st1) ->
  (f' = None \/ f' = Some (_flux st1)) ->
  compute st1 w' s' f' false = (Ok tt, st1).
Proof.
  intros H Hv Hw Hs Hf.
  destruct (compute_ok_inv _ _ _ _ _ _ H) as (Hpc & Hdc & p & Hp & Hk).
  apply (compute_clean_noop st1 p); try assumption.
  exact (kernel_to_params_one_outlier _ _ _ _ Hk Hv).
Qed.

(** New wavelengths or new uncertainties send [compute] to a rebuild. *)
Lemma data_change_detected {L : LinAlg} (st : GP) (w s : option vec)
    (f : option scalar_or_vec) (p : params) :
  kernel_to_params (variant st) (store st) (kernel st) = Ok p ->
  (exists w0, w = Some w0 /\ _wave st <> Some w0)
  \/ (exists s0, s = Some s0 /\ _sigma st <> Some s0) ->
  compute st w s f false
  = rebuild (update_data
               (set_params st (params_equal (store st) p (_params st)) (Some p))
               w s f).
Proof.
  intros Hk Hch. rewrite (compute_step _ _ _ _ _ p Hk). cbn zeta.
  assert (Hd : data_clean
                 (update_data
                    (set_params st (params_equal (store st) p (_params st))
                                (Some p)) w s f) = false).
  { unfold update_data. cbn.
    destruct Hch as [(w0 & -> & Hne) | (s0 & -> & Hne)].
    - assert (E : array_equal_opt w0 (_wave st) = false).
      { destruct (_wave st) as [c|]; cbn; [|reflexivity].
        destruct (vec_eqb w0 c) eqn:E; [|reflexivity].
        apply vec_eqb_eq in E. now subst. }
      rewrite E. cbn. apply andb_false_r.
    - assert (E : array_equal_opt s0 (_sigma st) = false).
      { destruct (_sigma st) as [c|]; cbn; [|reflexivity].
        destruct (vec_eqb s0 c) eqn:E; [|reflexivity].
        apply vec_eqb_eq in E. now subst. }
      rewrite E. rewrite andb_false_r. cbn. apply andb_false_r. }
  rewrite Hd, andb_false_r. reflexivity.
Qed.

Lemma nth_upd_same {A : Type} (k : nat) (v d : A) (l : list A) :
  (k < length l)%nat -> nth k (upd k v l) d = v.
Proof.
  revert k. induction l as [|a l IH]; intros [|k] Hk; cbn in *; try lia;
    [reflexivity | apply IH; lia].
Qed.

Lemma map_exp_upd_ne (i : nat) (x : R) (l : vec) :
  (i < length l)%nat -> exp x <> exp (nth i l 0) ->
  map exp (upd i x l) <> map exp l.
Proof.
  intros Hi Hx E. apply Hx.
  apply (f_equal (fun m => nth i m (exp 0))) in E.
  rewrite !map_nth in E. now rewrite nth_upd_same in E.
Qed.

Lemma kernel_setitem_ok (st st' : GP) (i : nat) (x : R) :
  kernel_setitem st i x = (Ok tt, st') ->
  (i < length (kernel_buf st))%nat
  /\ kernel_buf st' = upd i x (kernel_buf st)
  /\ st' = set_kernel_store st (store st') (kernel st).
Proof.
  unfold kernel_setitem.
  destruct (i <? length (kernel_buf st))%nat eqn:Hi; [|discriminate].
  intros H. injection H as <-. apply Nat.ltb_lt in Hi.
  split; [assumption|]. split; [|reflexivity].
  unfold kernel_buf in *. cbn. apply nth_upd_same.
  destruct (Nat.lt_ge_cases (kernel st) (length (store st))) as [|Hge];
    [assumption|].
  rewrite (nth_overflow _ _ Hge) in Hi. cbn in Hi. lia.
Qed.

(** The smooth kernels copy the kernel vector: two vectors that differ give
    parameters that compare unequal. *)
Lemma smooth_params_differ (v : kernel_variant) (sto sto' : list vec)
    (k k' : nat) (p p' : params) :
  v <> PhotOutlier ->
  kernel_to_params v sto k = Ok p ->
  kernel_to_params v sto' k' = Ok p' ->
  map exp (nth k' sto' []) <> map exp (nth k sto []) ->
  params_equal sto' p' (Some p) = false.
Proof.
  intros Hv Hp Hp' Hne. unfold kernel_to_params in *.
  destruct v; try contradiction;
    (destruct (map exp (nth k sto [])) as [|a [|b [|c [|? ?]]]];
     try discriminate; injection Hp as <-;
     destruct (map exp (nth k' sto' [])) as [|a' [|b' [|c' [|? ?]]]];
     try discriminate; injection Hp' as <-;
     unfold params_equal, params_asarray;
     destruct (vec_eqb _ _) eqn:E; [|reflexivity];
     apply vec_eqb_eq in E; contradiction).
Qed.

(** For the smooth kernels, a write into one position of the kernel vector
    that changes its exponential, the parameter [np.exp(kernel)[i]], sends
    the next [compute] to a rebuild. *)
Lemma smooth_change_detected {L : LinAlg} (st st' : GP) (p : params)
    (i : nat) (x : R) (w s : option vec) (f : option scalar_or_vec)
    (force : bool) :
  variant st <> PhotOutlier ->
  _params st = Some p ->
  kernel_to_params (variant st) (store st) (kernel st) = Ok p ->
  kernel_setitem st i x = (Ok tt, st') ->
  exp x <> exp (nth i (kernel_buf st) 0) ->
  exists p', kernel_to_params (variant st') (store st') (kernel st') = Ok p'
    /\ compute st' w s f force
       = rebuild (update_data (set_params st' false (Some p')) w s f).
Proof.
  intros Hv Hp Hk Hset Hx.
  destruct (kernel_setitem_ok _ _ _ _ Hset) as (Hi & Hbuf & Hst').
  assert (Hvar : variant st' = variant st) by (rewrite Hst'; reflexivity).
  assert (Hker : kernel st' = kernel st) by (rewrite Hst'; reflexivity).
  assert (Hpar : _params st' = _params st) by (rewrite Hst'; reflexivity).
  assert (Hk' : exists p',
             kernel_to_params (variant st') (store st') (kernel st') = Ok p').
  { rewrite Hvar. unfold kernel_to_params in *. unfold kernel_buf in Hbuf.
    rewrite Hbuf. unfold kernel_buf.
    destruct (variant st); try contradiction;
      destruct (nth (kernel st) (store st) []) as [|a [|b [|c [|? ?]]]];
      cbn in Hk; try discriminate;
      destruct i as [|[|[|[|i]]]]; cbn; eexists; reflexivity. }
  destruct Hk' as [p' Hk']. exists p'. split; [assumption|].
  rewrite (compute_step _ _ _ _ _ p' Hk'). cbn zeta.
  rewrite Hpar, Hp.
  rewrite (smooth_params_differ (variant st) (store st) (store st')
             (kernel st) (kernel st') p p'); try assumption.
  - reflexivity.
  - now rewrite <- Hvar.
  - fold (kernel_buf st') (kernel_buf st). rewrite Hbuf.
    now apply map_exp_upd_ne.
Qed.

(** A rebuild calls [cho_factor] once when [construct_covariance] returns a
    matrix, and not at all when it raises. *)
Lemma rebuild_factorizes_once {L : LinAlg} (st : GP) :
  factorizations (snd (rebuild st))
  = match construct_covariance st with
    | Ok _ => S (factorizations st)
    | Raise _ => factorizations st
    end.
Proof.
  unfold rebuild. destruct (construct_covariance st); [|reflexivity].
  destruct (cho_factor _); [|reflexivity].
  now destruct (isfinite _).
Qed.

(** C4, at the sparse outlier kernel. An engine on one point with the kernel
    vector [[2, 0]] is computed (covariance [[5]]); its caller writes
    [gp.kernel[0] = 3.0]; the next [compute] returns without a
    factorization and keeps the factor of [[5]], where the covariance of the
    kernel vector is now [[10]]. The cached parameters are slices of the
    kernel vector and have changed with it. *)
Theorem PhotOutlier_kernel_write_not_detected :
  let L := Cholesky.linalg in
  let r1 := compute (one_point PhotOutlier [2; 0] 1) None None None false in
  let r2 := kernel_setitem (snd r1) 0 3 in
  let r3 := compute (snd r2) None None None false in
  (fst r1 = Ok tt /\ factorizations (snd r1) = 1%nat
   /\ rmap to_matrix (construct_covariance (snd r1)) = Ok [[5]])
  /\ (fst r2 = Ok tt /\ kernel_buf (snd r2) = [3; 0])
  /\ (fst r3 = Ok tt
      /\ factorizations (snd r3) = 1%nat
      /\ factorized_Sigma (snd r3) = factorized_Sigma (snd r1)
      /\ rmap to_matrix (construct_covariance (snd r3)) = Ok [[10]]).
Proof.
  cbn zeta. rewrite outlier_first_compute. cbn [fst snd].
  rewrite outlier_write. cbn [fst snd].
  rewrite outlier_second_compute. cbn [fst snd].
  repeat split; try reflexivity.
  - unfold outlier_built. etransitivity; [apply PhotOutlier_one_point_cov|].
    do 3 f_equal. ring.
  - unfold outlier_written, outlier_built, set_kernel_store.
    cbn [variant _params params_clean data_clean _wave _sigma _flux
         factorized_Sigma log_det factorizations].
    etransitivity; [apply PhotOutlier_one_point_cov|].
    do 3 f_equal. ring.
Qed.

(** ** The likelihood *)

(** A residual whose length is not that of the cached uncertainties fails the
    assertion, before [compute] is called. *)
Lemma lnlikelihood_shape_mismatch {L : LinAlg} (st : GP) (residual sigma : vec) :
  _sigma st = Some sigma -> length residual <> length sigma ->
  lnlikelihood st residual = (Raise AssertionError, st).
Proof.
  intros Hs Hlen. unfold lnlikelihood. rewrite Hs. cbn [not_none bind].
  apply Nat.eqb_neq in Hlen. now rewrite Hlen.
Qed.



(** ** Prediction of the smooth kernels *)

(** [construct_covariance_test] returns for no kernel: the smooth kernels
    override [construct_diagonal] without the keyword [test], and
    [PhotOutlier] has no [construct_kernel] that takes coordinates. *)
Lemma construct_covariance_test_raises (st : GP) (w : option vec)
    (f : option scalar_or_vec) :
  exists e, construct_covariance_test st w f = Raise e.
Proof.
  unfold construct_covariance_test.
  destruct (covariance_test_scaled st w f) as [Sd|e] eqn:E; cbn [bind];
    [|now exists e].
  unfold construct_diagonal. destruct (variant st) eqn:Ev;
    try (now exists TypeError).
  unfold covariance_test_scaled, construct_kernel in E. rewrite Ev in E.
  discriminate.
Qed.

(** [predict] returns for no kernel and no arguments. *)
Lemma predict_never_returns {L : LinAlg} (st : GP) (r : vec) (w : option vec)
    (f : option scalar_or_vec) :
  exists e, predict st r w f = Raise e.
Proof.
  unfold predict. destruct w as [w|].
  - destruct (construct_covariance_cross st (Some w) f) as [c|e]; cbn [bind];
      [|now exists e].
    destruct (construct_covariance_test_raises st (Some w) f) as [e ->].
    now exists e.
  - destruct (construct_covariance_cross st (_wave st) (Some (_flux st)))
      as [c|e]; cbn [bind]; [|now exists e].
    destruct (construct_covariance_test_raises st (_wave st) (Some (_flux st)))
      as [e ->].
    now exists e.
Qed.

(** C3, in sample on one point. A squared-exponential engine with the
    kernel vector [[0, 0, 0]] has a valid cached factorization (of [[3]])
    after [compute]; [predict(r)] then raises [TypeError] instead of
    returning a mean and a covariance. The cross block and the test block
    before its last statement are both [[1]], the prior variance; on them
    the last two statements of [predict] give the mean [r / 3] and the
    variance [4 / 3 = 1 + 1 / 3], which is larger than the prior variance,
    because the solve is applied to [-Sigma_cross.T] and its result
    subtracted. *)
Theorem predict_raises_in_sample (r : R) :
  let L := Cholesky.linalg in
  let r1 := compute (one_point ExpSquared [0; 0; 0] 1) None None None false in
  let st := snd r1 in
  fst r1 = Ok tt
  /\ predict st [r] None None = Raise TypeError
  /\ rmap to_matrix (construct_covariance_cross st (_wave st) (Some (_flux st)))
     = Ok [[1]]
  /\ rmap (fun Sd => to_matrix (fst Sd))
          (covariance_test_scaled st (_wave st) (Some (_flux st)))
     = Ok [[1]]
  /\ posterior (factorized_Sigma st) [[1]] [[1]] [r] = Ok ([r / 3], [[4 / 3]]).
Proof.
  cbn zeta. rewrite engine_first_compute. cbn [fst snd].
  assert (HK : forall x : nat,
             exp 0 * exp (- (0 - 0) ^ 2 / (2 * exp 0)) = 1).
  { intros _. rewrite exp_0.
    replace (- (0 - 0) ^ 2 / (2 * 1)) with 0 by field.
    rewrite exp_0. ring. }
  repeat split.
  - unfold predict, engine_built. cbn.
    unfold construct_covariance_cross, base_construct_covariance_cross,
      construct_covariance_test, covariance_test_scaled. cbn.
    unfold construct_kernel, ExpSquared_construct_kernel, smooth_params. cbn.
    rewrite Reqb_refl. reflexivity.
  - unfold engine_built, construct_covariance_cross,
      base_construct_covariance_cross. cbn.
    unfold construct_kernel, ExpSquared_construct_kernel, smooth_params. cbn.
    rewrite Reqb_refl. cbn. unfold to_matrix. cbn. now rewrite (HK 0%nat).
  - unfold engine_built, covariance_test_scaled. cbn.
    unfold construct_kernel, ExpSquared_construct_kernel, smooth_params. cbn.
    rewrite Reqb_refl. cbn. unfold to_matrix. cbn. now rewrite (HK 0%nat).
  - unfold engine_built, posterior.
    cbn [factorized_Sigma not_none bind cho_solve cho_solve_m Cholesky.linalg].
    rewrite solve_1x1 by apply sqrt3_ne_0. cbn [bind].
    unfold dot_mv. cbn.
    pose proof sqrt3_ne_0 as Hn.
    do 2 f_equal; [f_equal | do 2 f_equal].
    + rewrite sqrt3_sq. field.
    + replace (1 - (1 * (((- (1) - 0) / sqrt 3 - 0) / sqrt 3) + 0))
        with (1 + 1 / (sqrt 3 * sqrt 3)) by (field; assumption).
      rewrite sqrt3_sq. field.
Qed.

(** ** A log-determinant that is not finite *)

Section NonFinite.

Context {L : LinAlg}.

(** A call of [compute] that rebuilds and finds a log-determinant that is not
    finite raises [AssertionError]. It leaves [params_clean] as
    [update_params] set it, does not turn [data_clean] from false to true,
    and has stored the factor and the log-determinant. *)
Lemma compute_nonfinite_raises (st : GP) (w s : option vec)
    (f : option scalar_or_vec) (force : bool) (p : params) (M : matrix)
    (F : factor) :
  kernel_to_params (variant st) (store st) (kernel st) = Ok p ->
  let st2 :=
    update_data
      (set_params st (params_equal (store st) p (_params st)) (Some p)) w s f in
  params_clean st2 && data_clean st2 && negb force = false ->
  rmap to_matrix (construct_covariance st2) = Ok M ->
  cho_factor M = Ok F ->
  isfinite (log_det_of F) = false ->
  let out := compute st w s f force in
  fst out = Raise AssertionError
  /\ params_clean (snd out) = params_equal (store st) p (_params st)
  /\ (data_clean (snd out) = true -> data_clean st = true)
  /\ factorized_Sigma (snd out) = Some F
  /\ log_det (snd out) = Some (log_det_of F).
Proof.
  intros Hk st2 Hc HM HF Hfin. cbn zeta.
  rewrite (compute_step _ _ _ _ _ p Hk). fold st2. rewrite Hc.
  rewrite (rebuild_nonfinite _ _ _ HM HF Hfin). cbn [fst snd].
  repeat split.
  intros H. cbn in H. now apply andb_true_iff in H as [H _].
Qed.

(** C9, at [params_clean]. When [params_clean] is false and the cached
    parameters are those of the kernel vector, a call of [compute] that
    rebuilds and finds a log-determinant that is not finite raises
    [AssertionError] and leaves [params_clean] true: [update_params] has set
    the flag before the rebuild. For the outlier kernel the kernel vector
    is one of a single outlier, of length 2 or 3, the case in which
    [np.array_equal] can compare the parameters. *)
Theorem compute_nonfinite_sets_params_clean (st : GP) (w s : option vec)
    (f : option scalar_or_vec) (force : bool) (p : params) (M : matrix)
    (F : factor) :
  params_clean st = false -> _params st = Some p ->
  kernel_to_params (variant st) (store st) (kernel st) = Ok p ->
  (variant st = PhotOutlier ->
   length (kernel_buf st) = 2%nat \/ length (kernel_buf st) = 3%nat) ->
  let st2 := update_data (set_params st true (Some p)) w s f in
  data_clean st2 && negb force = false ->
  rmap to_matrix (construct_covariance st2) = Ok M ->
  cho_factor M = Ok F ->
  isfinite (log_det_of F) = false ->
  let out := compute st w s f force in
  fst out = Raise AssertionError /\ params_clean (snd out) = true.
Proof.
  intros Hpc Hp Hk Hone st2 Hc HM HF Hfin.
  pose proof (compute_nonfinite_raises st w s f force p M F Hk) as H.
  cbn zeta in H.
  rewrite Hp, params_equal_refl,
    (kernel_to_params_one_outlier _ _ _ _ Hk Hone) in H.
  fold st2 in H.
  assert (Hc' : params_clean st2 && data_clean st2 && negb force = false).
  { rewrite <- andb_assoc. rewrite Hc. apply andb_false_r. }
  destruct (H Hc' HM HF Hfin) as (H1 & H2 & _). now split.
Qed.

End NonFinite.

Lemma compute_nonfinite_sets_params_clean_witness :
  let out := @compute Cholesky.unchecked outlier_failed None None None false in
  fst out = Raise AssertionError /\ params_clean (snd out) = true.
Proof.
  apply (@compute_nonfinite_sets_params_clean Cholesky.unchecked outlier_failed
           None None None false outlier_params [[0]] ([[sqrt 0]], false)).
  - reflexivity.
  - reflexivity.
  - reflexivity.
  - intros _. now left.
  - reflexivity.
  - etransitivity; [apply PhotOutlier_one_point_cov|]. do 3 f_equal. ring.
  - apply factorize_unchecked_1x1.
  - rewrite log_det_1x1_nonfinite by (rewrite sqrt_0; lra). reflexivity.
Defined.

(** * Further properties *)

(** ** The covariance builders on two points *)

Lemma unit_flux_scalar : any_ne_1 (Scalar 1) = false.
Proof. cbn. now rewrite Reqb_refl. Qed.



Lemma ExpSquared_covariance_near_diagonal_witness :
  exists C, construct_covariance (two_points ExpSquared) = Ok C
    /\ forall i j, (i < length [0; 1])%nat -> (j < length [0; 1])%nat ->
         0 <= ent C i j
              - (if (i =? j)%nat then nth i [1; 1] 0 ^ 2 + exp 0 ^ 2 else 0)
           <= exp 0.
Proof.
  apply (ExpSquared_covariance_near_diagonal (two_points ExpSquared)
           (exp 0) (exp 0) (exp 0) [0; 1] [1; 1]).
  - reflexivity.
  - reflexivity.
  - reflexivity.
  - reflexivity.
  - reflexivity.
  - exact unit_flux_scalar.
  - rewrite exp_0. lra.
  - rewrite exp_0. lra.
Defined.


Lemma flux_2_3 : any_ne_1 (Vector [2; 3]) = true.
Proof. cbn. now rewrite (Reqb_neq 2 1) by lra. Qed.

Lemma two_points_flux_kernel (x xs : vec) : exists K, construct_kernel two_points_flux (Some x) (Some xs) = Ok K.
Proof.
  destruct (ExpSquared_kernel_entries two_points_flux _ _ _ x xs eq_refl eq_refl) as (K & HK & _).
  now exists K.
Qed.

Lemma construct_covariance_flux_scaling_witness :
  exists K C,
    construct_kernel two_points_flux (Some [0; 1]) (Some [0; 1]) = Ok K
    /\ construct_covariance two_points_flux = Ok C
    /\ forall i j, (i < 2)%nat -> (j < 2)%nat ->
         ent C i j
         = nth i [2; 3] 0 * ent K i j * nth j [2; 3] 0
           + (if (i =? j)%nat
              then nth i (vadd_scalar (vsq [1; 1]) (exp 0 ^ 2)) 0 else 0).
Proof.
  destruct (two_points_flux_kernel [0; 1] [0; 1]) as [K HK].
  exists K.
  destruct (construct_covariance_flux_scaling two_points_flux [0; 1] [2; 3]
              (vadd_scalar (vsq [1; 1]) (exp 0 ^ 2)) K) as (C & HC & He).
  - discriminate.
  - reflexivity.
  - reflexivity.
  - exact flux_2_3.
  - reflexivity.
  - exact HK.
  - apply (smooth_diagonal two_points_flux (exp 0) (exp 0) (exp 0) [1; 1]);
      [discriminate | reflexivity | reflexivity].
  - reflexivity.
  - exists C. repeat split; assumption.
Defined.

Lemma construct_covariance_cross_flux_scaling_witness :
  exists K C,
    construct_kernel two_points_flux (Some [0; 1]) (Some [5]) = Ok K
    /\ construct_covariance_cross two_points_flux (Some [5]) (Some (Vector [7])) = Ok C
    /\ forall i j, (i < 1)%nat -> (j < 2)%nat ->
         ent C i j = nth i [7] 0 * ent K i j * nth j [2; 3] 0.
Proof.
  destruct (two_points_flux_kernel [0; 1] [5]) as [K HK].
  exists K.
  destruct (construct_covariance_cross_flux_scaling two_points_flux [0; 1] [2; 3] [5] [7] K)
    as (C & HC & He).
  - discriminate.
  - reflexivity.
  - reflexivity.
  - exact flux_2_3.
  - reflexivity.
  - reflexivity.
  - exact HK.
  - exists C. repeat split; assumption.
Defined.

(** ** The sparse outlier kernel *)

Lemma fancy_fold_off_diagonal (l : list (nat * R)) (B : arr2) (i j : nat) :
  i <> j ->
  ent (fold_left
         (fun (B : arr2) (kx : nat * R) =>
            Arr2 (sh0 B) (sh1 B)
                 (fun i j =>
                    if ((i =? fst kx) && (j =? fst kx))%nat then snd kx
                    else ent B i j))
         l B) i j
  = ent B i j.
Proof.
  intros Hij. revert B. induction l as [|kx l IH]; intros B; cbn; [reflexivity|].
  rewrite IH. cbn.
  destruct (i =? fst kx)%nat eqn:Ei, (j =? fst kx)%nat eqn:Ej; cbn; try reflexivity.
  apply Nat.eqb_eq in Ei, Ej. congruence.
Qed.

Lemma fancy_fold_shape (l : list (nat * R)) (B : arr2) :
  let B' := fold_left
         (fun (B : arr2) (kx : nat * R) =>
            Arr2 (sh0 B) (sh1 B)
                 (fun i j =>
                    if ((i =? fst kx) && (j =? fst kx))%nat then snd kx
                    else ent B i j))
         l B in
  sh0 B' = sh0 B /\ sh1 B' = sh1 B.
Proof.
  revert B. induction l as [|kx l IH]; intros B; cbn; [now split|].
  destruct (IH (Arr2 (sh0 B) (sh1 B)
                 (fun i j =>
                    if ((i =? fst kx) && (j =? fst kx))%nat then snd kx
                    else ent B i j))) as [H0 H1].
  cbn in *. now split.
Qed.

Lemma fancy_fold_diagonal_ge (A0 : arr2) (l : list (nat * R)) (B : arr2) (i : nat) :
  (forall kx, In kx l -> ent A0 (fst kx) (fst kx) <= snd kx) ->
  (forall k, ent A0 k k <= ent B k k) ->
  ent A0 i i
  <= ent (fold_left
         (fun (B : arr2) (kx : nat * R) =>
            Arr2 (sh0 B) (sh1 B)
                 (fun i j =>
                    if ((i =? fst kx) && (j =? fst kx))%nat then snd kx
                    else ent B i j))
         l B) i i.
Proof.
  revert B. induction l as [|kx l IH]; intros B Hl HB; cbn; [apply HB|].
  apply IH.
  - intros kx' Hin. apply Hl. now right.
  - intros k. cbn. destruct (k =? fst kx)%nat eqn:E; cbn; [|apply HB].
    apply Nat.eqb_eq in E. subst k. apply Hl. now left.
Qed.

Lemma nth_map_combine (g : R * R -> R) (a b : vec) (i : nat) :
  (i < length a)%nat -> length b = length a ->
  nth i (map g (combine a b)) 0 = g (nth i a 0, nth i b 0).
Proof.
  intros Hi Hl.
  rewrite (nth_indep _ 0 (g (0, 0))) by (rewrite length_map, length_combine; lia).
  rewrite (map_nth g). f_equal. apply combine_nth. now symmetry.
Qed.

(** The covariance matrix of the sparse outlier kernel is an N x N diagonal
    matrix, N the number of uncertainties, and its diagonal entry [i] is at
    least [sigma_i ^ 2]. *)
Theorem PhotOutlier_covariance_diagonal (st : GP) (sigma : vec) (C : arr2) :
  variant st = PhotOutlier -> _sigma st = Some sigma ->
  construct_covariance st = Ok C ->
  sh0 C = length sigma /\ sh1 C = length sigma
  /\ (forall i j, i <> j -> ent C i j = 0)
  /\ (forall i, (i < length sigma)%nat -> nth i sigma 0 ^ 2 <= ent C i i).
Proof.
  intros Hv Hs. unfold construct_covariance, PhotOutlier_construct_covariance.
  rewrite Hv, Hs.
  destruct (_params st) as [[s a l|jit lo am]|]; cbn [bind not_none];
    try discriminate.
  set (flux := if all_eq_1 (_flux st) then Vector (repeat 1 (length sigma)) else _flux st).
  destruct flux as [x|f] eqn:Ef; cbn [bind sv_len sv_array]; [discriminate|].
  destruct (np_max _) as [mx|]; cbn [bind]; [|discriminate].
  destruct (py_assert _); cbn [bind]; [|discriminate].
  unfold py_assert at 1.
  destruct (length f =? length sigma)%nat eqn:El; cbn [bind]; [|discriminate].
  apply Nat.eqb_eq in El.
  set (noise := map (fun sf : R * R => fst sf ^ 2 + (jit * snd sf) ^ 2) (combine sigma f)).
  assert (Hn : length noise = length sigma).
  { unfold noise. rewrite length_map, length_combine. lia. }
  unfold diag_iadd. rewrite Hn, Nat.eqb_refl. cbn [orb bind sh0 sh1 ent].
  destruct (norm_indices (length f) _) as [ks|]; cbn [bind]; [|discriminate].
  destruct (norm_indices (length sigma) _) as [ks'|]; cbn [bind]; [|discriminate].
  intros H. injection H as <-.
  unfold fancy_diag_iadd.
  match goal with |- context [fold_left ?F ?l ?B] => set (l0 := l); set (B0 := B) end.
  destruct (fancy_fold_shape l0 B0) as [H0 H1]. cbn zeta in H0, H1.
  split; [exact H0|]. split; [exact H1|]. split.
  - intros i j Hij. rewrite (fancy_fold_off_diagonal l0 B0 i j Hij).
    unfold B0. cbn [ent]. apply Nat.eqb_neq in Hij. now rewrite Hij.
  - intros i Hi.
    assert (HB : nth i sigma 0 ^ 2 <= ent B0 i i).
    { unfold B0. cbn [ent]. rewrite Nat.eqb_refl.
      apply Nat.ltb_lt in Hi as Hi'. rewrite Hi'. cbn [andb].
      rewrite bidx_lt by lia. unfold noise.
      rewrite nth_map_combine by lia. cbn [fst snd].
      pose proof (pow2_ge_0 (jit * nth i f 0)). lra. }
    eapply Rle_trans; [exact HB|].
    apply fancy_fold_diagonal_ge.
    + intros kx Hin. unfold l0 in Hin.
      apply in_map_iff in Hin as (kv & <- & Hkv).
      destruct kv as [k v]. apply in_combine_r in Hkv.
      apply in_map_iff in Hkv as (x & <- & _).
      cbn [fst snd]. fold B0. pose proof (pow2_ge_0 x). lra.
    + intros k. lra.
Qed.

Lemma fold_max_lt (zs : list Z) (z n : Z) :
  (fold_left Z.max zs z < n)%Z <-> (z < n)%Z /\ Forall (fun y => (y < n)%Z) zs.
Proof.
  revert z. induction zs as [|y zs IH]; intros z; cbn.
  - split; [intros H; split; [assumption|constructor] | now intros [H _]].
  - rewrite IH. split.
    + intros [Hm Hf]. split; [lia|]. constructor; [lia|assumption].
    + intros [Hz Hf]. inversion Hf; subst. split; [lia|assumption].
Qed.

Lemma norm_index_ok (n : nat) (z : Z) :
  (exists k, norm_index n z = Ok k) <-> (- Z.of_nat n <= z < Z.of_nat n)%Z.
Proof.
  unfold norm_index.
  destruct ((0 <=? z) && (z <? Z.of_nat n))%Z eqn:E1.
  - apply andb_true_iff in E1 as [H1 H2].
    apply Z.leb_le in H1. apply Z.ltb_lt in H2.
    split; [intros _; lia | intros _; eauto].
  - destruct ((- Z.of_nat n <=? z) && (z <? 0))%Z eqn:E2.
    + apply andb_true_iff in E2 as [H1 H2].
      apply Z.leb_le in H1. apply Z.ltb_lt in H2.
      split; [intros _; lia | intros _; eauto].
    + split; [intros [k Hk]; discriminate|].
      intros [Hlo Hhi]. exfalso.
      apply andb_false_iff in E1, E2.
      rewrite Z.leb_gt, Z.ltb_ge in E1. rewrite Z.leb_gt, Z.ltb_ge in E2. lia.
Qed.

Lemma norm_indices_ok (n : nat) (zs : list Z) :
  (exists ks, norm_indices n zs = Ok ks)
  <-> Forall (fun z => (- Z.of_nat n <= z < Z.of_nat n)%Z) zs.
Proof.
  induction zs as [|z zs IH]; cbn.
  - split; [constructor | eauto].
  - split.
    + intros [ks H].
      destruct (norm_index n z) as [k|] eqn:Ek; cbn in H; [|discriminate].
      destruct (norm_indices n zs) as [ks'|] eqn:Eks; cbn in H; [|discriminate].
      constructor; [apply norm_index_ok; eauto | apply IH; eauto].
    + intros H. inversion H as [|? ? Hz Hzs]; subst.
      apply norm_index_ok in Hz as [k ->]. apply IH in Hzs as [ks ->].
      cbn. eauto.
Qed.

(** With flux 1, [construct_covariance] of the sparse outlier kernel returns
    exactly when the kernel vector holds at least one location and every
    location, truncated to an integer, is an index of the N uncertainties,
    counted from the front or from the end. Without a location it raises
    [ValueError]; with a location of N or more it raises
    [AssertionError]. *)
Theorem PhotOutlier_covariance_returns_iff (st : GP) (jit : R) (lo am : view)
    (sigma : vec) :
  variant st = PhotOutlier ->
  _params st = Some (OutlierParams jit lo am) ->
  _sigma st = Some sigma ->
  all_eq_1 (_flux st) = true ->
  let locs := map astype_int (read_view (store st) lo) in
  let n := Z.of_nat (length sigma) in
  ((exists C, construct_covariance st = Ok C)
   <-> locs <> [] /\ Forall (fun z => (- n <= z < n)%Z) locs)
  /\ (locs = [] -> construct_covariance st = Raise ValueError)
  /\ (Exists (fun z => (n <= z)%Z) locs ->
      construct_covariance st = Raise AssertionError).
Proof.
  intros Hv Hp Hs Hf locs n.
  unfold construct_covariance, PhotOutlier_construct_covariance.
  rewrite Hv, Hp, Hs, Hf. cbn [bind not_none sv_len sv_array].
  rewrite repeat_length. fold locs. rewrite Nat.eqb_refl.
  cbn [py_assert bind].
  unfold diag_iadd. rewrite length_map, length_combine, repeat_length, Nat.min_id,
    Nat.eqb_refl.
  cbn [orb bind].
  destruct locs as [|z zs] eqn:El.
  - cbn. split; [|split].
    + split; [intros [C H]; discriminate | intros [H _]; contradiction].
    + reflexivity.
    + intros H. inversion H.
  - cbn [np_max bind]. fold n.
    destruct (fold_left Z.max zs z <? n)%Z eqn:Em; cbn [py_assert bind].
    + apply Z.ltb_lt in Em. apply fold_max_lt in Em as [Hz Hzs].
      split; [|split].
      * destruct (norm_indices (length sigma) (z :: zs)) as [ks|] eqn:Ek;
          cbn [bind].
        -- split; [|eauto]. intros _. split; [discriminate|].
           apply norm_indices_ok. eauto.
        -- split; [intros [C H]; discriminate|].
           intros [_ H]. apply norm_indices_ok in H as [ks H].
           rewrite H in Ek. discriminate.
      * discriminate.
      * intros H. exfalso. apply Exists_exists in H as (y & Hin & Hy).
        destruct Hin as [<- | Hin]; [lia|].
        rewrite Forall_forall in Hzs. specialize (Hzs y Hin). lia.
    + split; [|split].
      * split; [intros [C H]; discriminate|].
        intros [_ H]. exfalso. apply Z.ltb_ge in Em.
        assert (Hlt : (fold_left Z.max zs z < n)%Z).
        { apply fold_max_lt. inversion H; subst. split; [lia|].
          eapply Forall_impl; [|eassumption]. cbn. intros; lia. }
        lia.
      * discriminate.
      * reflexivity.
Qed.

Lemma outlier_example_covariance :
  exists C, construct_covariance outlier_example = Ok C.
Proof.
  unfold outlier_example, init, update_params. cbn.
  unfold construct_covariance, PhotOutlier_construct_covariance. cbn.
  rewrite Reqb_refl. cbn.
  rewrite !(astype_int_IZR 3). cbn.
  eexists. reflexivity.
Qed.

Lemma PhotOutlier_covariance_diagonal_witness :
  exists C,
    construct_covariance outlier_example = Ok C
    /\ sh0 C = 5%nat /\ sh1 C = 5%nat
    /\ (forall i j, i <> j -> ent C i j = 0)
    /\ (forall i, (i < 5)%nat -> nth i [1; 1; 1; 1; 1] 0 ^ 2 <= ent C i i).
Proof.
  destruct outlier_example_covariance as [C HC].
  exists C. split; [exact HC|].
  apply (PhotOutlier_covariance_diagonal outlier_example [1; 1; 1; 1; 1] C).
  - reflexivity.
  - reflexivity.
  - exact HC.
Defined.

Lemma outlier_example_unit_flux : all_eq_1 (_flux outlier_example) = true.
Proof. cbn. apply Reqb_refl. Qed.

Lemma PhotOutlier_covariance_returns_iff_witness :
  let locs := map astype_int (read_view (store outlier_example) (View 1 1 2)) in
  let n := Z.of_nat (length [1; 1; 1; 1; 1]) in
  ((exists C, construct_covariance outlier_example = Ok C)
   <-> locs <> [] /\ Forall (fun z => (- n <= z < n)%Z) locs)
  /\ (locs = [] -> construct_covariance outlier_example = Raise ValueError)
  /\ (Exists (fun z => (n <= z)%Z) locs ->
      construct_covariance outlier_example = Raise AssertionError).
Proof.
  apply (PhotOutlier_covariance_returns_iff outlier_example 0 (View 1 1 2)
           (View 1 0 1) [1; 1; 1; 1; 1]).
  - reflexivity.
  - reflexivity.
  - reflexivity.
  - exact outlier_example_unit_flux.
Defined.

(** ** Cache hits, misses and failures *)

Lemma compute_twice_noop_witness :
  @compute Cholesky.linalg engine_built None None None false
  = (Ok tt, engine_built).
Proof.
  apply (@compute_twice_noop Cholesky.linalg (one_point ExpSquared [0; 0; 0] 1)
           engine_built None None None None None None false
           engine_first_compute); now left.
Defined.

Lemma data_change_detected_witness :
  @compute Cholesky.linalg engine_built (Some [5]) None None false
  = @rebuild Cholesky.linalg
      (update_data
         (set_params engine_built
            (params_equal (store engine_built) smooth_params_0
                          (_params engine_built))
            (Some smooth_params_0))
         (Some [5]) None None).
Proof.
  apply (@data_change_detected Cholesky.linalg engine_built (Some [5]) None None
           smooth_params_0).
  - reflexivity.
  - left. exists [5]. split; [reflexivity|].
    cbn. intros H. injection H as H. lra.
Defined.

Lemma smooth_change_detected_witness :
  exists p',
    kernel_to_params (variant engine_written) (store engine_written)
                     (kernel engine_written) = Ok p'
    /\ @compute Cholesky.linalg engine_written None None None false
       = @rebuild Cholesky.linalg
           (update_data (set_params engine_written false (Some p'))
                        None None None).
Proof.
  apply (@smooth_change_detected Cholesky.linalg engine_built engine_written
           smooth_params_0 0 1 None None None false).
  - discriminate.
  - reflexivity.
  - reflexivity.
  - exact engine_write.
  - cbn. exact exp1_ne_exp0.
Defined.

Lemma lnlikelihood_shape_mismatch_witness :
  @lnlikelihood Cholesky.linalg engine_built [1; 2]
  = (Raise AssertionError, engine_built).
Proof.
  apply (@lnlikelihood_shape_mismatch Cholesky.linalg engine_built [1; 2] [1]).
  - reflexivity.
  - cbn. lia.
Defined.

(** With [force], [compute] rebuilds whatever the flags are: it calls
    [cho_factor] exactly once when the covariance matrix can be built. *)
Theorem compute_force_factorizes_once {L : LinAlg} (st : GP) (w s : option vec)
    (f : option scalar_or_vec) (p : params) (M : matrix) :
  kernel_to_params (variant st) (store st) (kernel st) = Ok p ->
  let st2 :=
    update_data
      (set_params st (params_equal (store st) p (_params st)) (Some p)) w s f in
  rmap to_matrix (construct_covariance st2) = Ok M ->
  compute st w s f true = rebuild st2
  /\ factorizations (snd (compute st w s f true)) = S (factorizations st).
Proof.
  intros Hk st2 HM.
  assert (E : compute st w s f true = rebuild st2).
  { rewrite (compute_step _ _ _ _ _ p Hk). fold st2.
    now rewrite andb_false_r. }
  split; [exact E|]. rewrite E, rebuild_factorizes_once.
  apply rmap_ok_inv in HM as (C & -> & _). reflexivity.
Qed.

Lemma compute_force_factorizes_once_witness :
  let st2 :=
    update_data
      (set_params engine_built
         (params_equal (store engine_built) smooth_params_0
                       (_params engine_built))
         (Some smooth_params_0)) None None None in
  @compute Cholesky.linalg engine_built None None None true
  = @rebuild Cholesky.linalg st2
  /\ factorizations
       (snd (@compute Cholesky.linalg engine_built None None None true))
     = S (factorizations engine_built).
Proof.
  apply (@compute_force_factorizes_once Cholesky.linalg engine_built None None
           None smooth_params_0 [[2 + exp 0 ^ 2]]).
  - reflexivity.
  - apply ExpSquared_one_point_cov.
Defined.

(** When [compute] raises and leaves [data_clean] true, a second call with
    the same kernel vector and no data returns on the cheap path: the call
    that failed has cached the parameters, so [update_params] finds them
    unchanged and sets [params_clean]. For the outlier kernel this needs a
    kernel vector of one outlier, that is of length 2 or 3. *)
Theorem compute_retry_after_failure {L : LinAlg} (st st1 : GP)
    (w s : option vec) (f : option scalar_or_vec) (force : bool) (p : params)
    (e : exn) :
  kernel_to_params (variant st) (store st) (kernel st) = Ok p ->
  (variant st = PhotOutlier ->
   length (kernel_buf st) = 2%nat \/ length (kernel_buf st) = 3%nat) ->
  compute st w s f force = (Raise e, st1) ->
  data_clean st1 = true ->
  compute st1 None None None false = (Ok tt, set_params st1 true (Some p)).
Proof.
  intros Hk Hone Hc Hd.
  pose proof (kernel_to_params_one_outlier _ _ _ _ Hk Hone) as Hreg.
  rewrite (compute_step _ _ _ _ _ p Hk) in Hc. cbn zeta in Hc.
  remember (update_data _ w s f) as st2 eqn:E2.
  assert (H2 : variant st2 = variant st /\ store st2 = store st
               /\ kernel st2 = kernel st /\ _params st2 = Some p)
    by (subst st2; now repeat split).
  destruct H2 as (Hv & Hs & Hkk & Hp). clear E2.
  destruct (params_clean st2 && data_clean st2 && negb force); [discriminate|].
  pose proof (rebuild_frame st2) as Hfr. rewrite Hc in Hfr. cbn in Hfr.
  destruct Hfr as (Hv' & Hs' & Hk' & Hp' & _).
  assert (Hk1 : kernel_to_params (variant st1) (store st1) (kernel st1) = Ok p)
    by now rewrite Hv', Hs', Hk', Hv, Hs, Hkk.
  rewrite (compute_step _ _ _ _ _ p Hk1). cbn zeta.
  rewrite Hp', Hp, params_equal_refl, Hs', Hs, Hreg.
  rewrite update_data_same; try (now left); [|exact Hd].
  cbn [params_clean data_clean set_params]. now rewrite Hd.
Qed.

Lemma outlier_zero_first_compute :
  @compute Cholesky.linalg (one_point PhotOutlier [2; 0] 0) None None None false
  = (Ok tt, outlier_zero_built).
Proof.
  rewrite one_point_eq.
  rewrite (compute_step _ _ _ _ _ outlier_params) by reflexivity.
  cbn.
  assert (H4 : 0 < sqrt 4) by (apply sqrt_lt_R0; lra).
  erewrite (@rebuild_returns Cholesky.linalg _ [[4]] ([[sqrt 4]], false)).
  - rewrite log_det_1x1 by assumption. reflexivity.
  - etransitivity; [apply PhotOutlier_one_point_cov|]. do 3 f_equal. ring.
  - apply factorize_1x1. lra.
  - now rewrite log_det_1x1.
Qed.

Lemma factorize_1x1_fails (a : R) :
  a <= 0 -> Cholesky.factorize true [[a]] = Raise LinAlgError.
Proof.
  intros Ha. unfold Cholesky.factorize. cbn.
  unfold Cholesky.pivot, Cholesky.entry. cbn. rewrite Rminus_0_r.
  destruct (Rlt_dec 0 a); [lra|]. reflexivity.
Qed.

Lemma outlier_rebound_compute :
  @compute Cholesky.linalg outlier_rebound None None None false
  = (Raise LinAlgError, outlier_rebound_failed).
Proof.
  rewrite (compute_step _ _ _ _ _ outlier_params_2) by reflexivity.
  cbn zeta.
  assert (Hpe : params_equal (store outlier_rebound) outlier_params_2
                  (_params outlier_rebound) = false).
  { cbn. rewrite Reqb_refl. rewrite (Reqb_neq 0 2) by lra. reflexivity. }
  rewrite Hpe.
  unfold rebuild.
  assert (Hcov : exists C,
             construct_covariance
               (update_data (set_params outlier_rebound false (Some outlier_params_2))
                            None None None) = Ok C
             /\ to_matrix C = [[0]]).
  { unfold construct_covariance, PhotOutlier_construct_covariance. cbn.
    rewrite Reqb_refl. cbn. rewrite astype_int_0. cbn.
    eexists. split; [reflexivity|].
    unfold to_matrix. cbn. do 2 f_equal. ring. }
  destruct Hcov as (C & HC & HM).
  cbn [params_clean andb]. rewrite HC, HM.
  cbn [cho_factor Cholesky.linalg]. rewrite factorize_1x1_fails by lra.
  reflexivity.
Qed.

Lemma compute_retry_after_failure_witness :
  @compute Cholesky.linalg outlier_rebound_failed None None None false
  = (Ok tt, set_params outlier_rebound_failed true (Some outlier_params_2)).
Proof.
  apply (@compute_retry_after_failure Cholesky.linalg outlier_rebound
           outlier_rebound_failed None None None false outlier_params_2
           LinAlgError).
  - reflexivity.
  - intros _. now left.
  - exact outlier_rebound_compute.
  - reflexivity.
Defined.

(** The cache of the outlier kernel never hits unless the kernel vector
    holds exactly one outlier. With no outlier, or with two or more, the
    tuple [(jitter, locs, amps)] is ragged, [np.array_equal] gives [False]
    on it even against itself, and [update_params] leaves [params_clean]
    false: every call of [compute], whatever its arguments and whatever the
    flags were, goes on to build and factorize the covariance matrix. *)
Theorem PhotOutlier_never_caches {L : LinAlg} (st : GP) (w s : option vec)
    (f : option scalar_or_vec) (force : bool) :
  variant st = PhotOutlier ->
  length (kernel_buf st) <> 2%nat -> length (kernel_buf st) <> 3%nat ->
  exists p,
    kernel_to_params (variant st) (store st) (kernel st) = Ok p
    /\ params_equal (store st) p (Some p) = false
    /\ compute st w s f force
       = rebuild (update_data (set_params st false (Some p)) w s f).
Proof.
  intros Hv H2 H3.
  assert (Hk : exists p,
             kernel_to_params (variant st) (store st) (kernel st) = Ok p).
  { rewrite Hv. unfold kernel_to_params. eexists. reflexivity. }
  destruct Hk as [p Hk]. exists p. split; [exact Hk|].
  assert (Hr : params_regular (store st) p = false).
  { rewrite (kernel_to_params_regular _ _ _ _ Hk), Hv.
    apply orb_false_iff. split; apply Nat.eqb_neq; assumption. }
  assert (He : forall c, params_equal (store st) p c = false).
  { intros c. destruct (params_equal (store st) p c) eqn:E; [|reflexivity].
    apply params_equal_regular in E. congruence. }
  split; [apply He|].
  rewrite (compute_step _ _ _ _ _ p Hk). cbn zeta.
  rewrite He. reflexivity.
Qed.

Lemma PhotOutlier_never_caches_witness :
  let st := init PhotOutlier (Some [0; 0]) (Some [1; 1]) (Some [2; 2; 0; 1]) None in
  exists p,
    kernel_to_params (variant st) (store st) (kernel st) = Ok p
    /\ params_equal (store st) p (Some p) = false
    /\ @compute Cholesky.linalg st None None None false
       = @rebuild Cholesky.linalg
           (update_data (set_params st false (Some p)) None None None).
Proof.
  apply (@PhotOutlier_never_caches Cholesky.linalg
           (init PhotOutlier (Some [0; 0]) (Some [1; 1]) (Some [2; 2; 0; 1]) None)
           None None None false).
  - reflexivity.
  - cbn. lia.
  - cbn. lia.
Defined.

(** ** An engine without data *)

Lemma construct_covariance_needs_data (st : GP) :
  _wave st = None -> _sigma st = None ->
  construct_covariance st = Raise TypeError.
Proof.
  intros Hw Hs.
  unfold construct_covariance, base_construct_covariance,
    PhotOutlier_construct_covariance, construct_kernel,
    ExpSquared_construct_kernel, Matern_construct_kernel, smooth_params.
  rewrite Hw, Hs.
  destruct (variant st); destruct (_params st) as [[s a l|j lo am]|]; cbn;
    reflexivity.
Qed.

(** An engine constructed without wavelengths and uncertainties cannot be
    computed: [compute()] raises [TypeError], or [ValueError] when a smooth
    kernel has a kernel vector that is not of length 3, without calling
    [cho_factor] and without setting [data_clean]; and [lnlikelihood] raises
    [TypeError] and leaves the engine as it is. *)
Theorem compute_without_data {L : LinAlg} (v : kernel_variant)
    (kern : option vec) (flux : option scalar_or_vec) (force : bool)
    (r : vec) :
  let st := init v None None kern flux in
  (exists e, fst (compute st None None None force) = Raise e
             /\ (e = TypeError \/ e = ValueError))
  /\ factorizations (snd (compute st None None None force)) = 0%nat
  /\ data_clean (snd (compute st None None None force)) = false
  /\ lnlikelihood st r = (Raise TypeError, st).
Proof.
  intros st.
  assert (Hl : lnlikelihood st r = (Raise TypeError, st)) by reflexivity.
  unfold compute, update_params.
  destruct (kernel_to_params (variant st) (store st) (kernel st)) as [p|e] eqn:Hk.
  - set (st2 := update_data _ None None None).
    assert (Hd : data_clean st2 = false) by reflexivity.
    assert (Hn : factorizations st2 = 0%nat) by reflexivity.
    rewrite Hd, andb_false_r. cbn [andb].
    unfold rebuild.
    rewrite (construct_covariance_needs_data st2 eq_refl eq_refl).
    cbn [fst snd]. repeat split; eauto.
  - cbn [fst snd]. repeat split; try reflexivity.
    exists e. split; [reflexivity|]. right.
    unfold kernel_to_params in Hk.
    destruct (variant st); try discriminate;
      destruct (map exp _) as [|a [|b [|c [|d l]]]]; try discriminate;
      now injection Hk.
Qed.

Lemma nth_length_app {A : Type} (l : list A) (x d : A) :
  nth (length l) (l ++ [x]) d = x.
Proof. rewrite app_nth2 by lia. now rewrite Nat.sub_diag. Qed.

(** [reset] blanks an engine whatever its state: the kernel vector is a new
    array of three zeros, the data and the factor are gone, and until data
    are supplied [compute()] and [lnlikelihood] raise [TypeError] without
    calling [cho_factor]. *)
Theorem reset_blanks_engine {L : LinAlg} (st : GP) (force : bool) (r : vec) :
  let st' := reset st in
  kernel_buf st' = [0; 0; 0]
  /\ factorized_Sigma st' = None
  /\ fst (compute st' None None None force) = Raise TypeError
  /\ factorizations (snd (compute st' None None None force))
     = factorizations st
  /\ lnlikelihood st' r = (Raise TypeError, st').
Proof.
  intros st'.
  assert (Hb : nth (kernel st') (store st') [] = [0; 0; 0]).
  { unfold st', reset. cbn [store kernel]. apply nth_length_app. }
  split; [exact Hb|]. split; [reflexivity|].
  assert (Hl : lnlikelihood st' r = (Raise TypeError, st')) by reflexivity.
  assert (Hk : exists p, kernel_to_params (variant st') (store st') (kernel st')
                         = Ok p).
  { unfold kernel_to_params. rewrite Hb.
    destruct (variant st'); cbn; eauto. }
  destruct Hk as [p Hk].
  rewrite (compute_step _ _ _ _ _ p Hk). cbn zeta.
  set (st2 := update_data _ None None None).
  assert (Hd : data_clean st2 = false) by reflexivity.
  assert (Hn : factorizations st2 = factorizations st) by reflexivity.
  rewrite Hd, andb_false_r. cbn [andb].
  unfold rebuild.
  rewrite (construct_covariance_needs_data st2 eq_refl eq_refl).
  cbn [fst snd]. repeat split; assumption.
Qed.

(** ** Invariants over sequences of calls *)

Lemma construct_covariance_needs_params (st : GP) (C : arr2) :
  construct_covariance st = Ok C -> exists p, _params st = Some p.
Proof.
  unfold construct_covariance, base_construct_covariance,
    PhotOutlier_construct_covariance, construct_kernel,
    ExpSquared_construct_kernel, Matern_construct_kernel, smooth_params.
  destruct (_params st) as [p|]; [eauto|].
  destruct (variant st); cbn; discriminate.
Qed.

Section Sequences.

Context {L : LinAlg}.

Lemma rebuild_cache_present (st : GP) :
  cache_present st -> cache_present (snd (rebuild st)).
Proof.
  intros [Hd Hp]. unfold rebuild.
  destruct (construct_covariance st) as [C|] eqn:EC; cbn [snd]; [|now split].
  destruct (cho_factor _) as [F|]; cbn [snd]; [|now split].
  destruct (isfinite _); cbn [snd].
  - split; intros _; cbn; [split; eauto|].
    eapply construct_covariance_needs_params; eauto.
  - split; [intros _; cbn; split; eauto | exact Hp].
Qed.

Lemma update_params_cache_present (st : GP) :
  cache_present st -> cache_present (snd (update_params st)).
Proof.
  intros [Hd Hp]. unfold update_params.
  destruct (kernel_to_params _ _ _) as [p|]; cbn [snd]; [|now split].
  split; [exact Hd | intros _; cbn; eauto].
Qed.

Lemma update_data_cache_present (st : GP) (w s : option vec)
    (f : option scalar_or_vec) :
  cache_present st -> cache_present (update_data st w s f).
Proof.
  intros [Hd Hp]. split; [|exact Hp].
  intros H. apply update_data_downgrades in H. apply Hd in H. exact H.
Qed.

Lemma compute_cache_present (st : GP) (w s : option vec)
    (f : option scalar_or_vec) (force : bool) :
  cache_present st -> cache_present (snd (compute st w s f force)).
Proof.
  intros H. unfold compute.
  pose proof (update_params_cache_present st H) as H1.
  destruct (update_params st) as [[u|e] st1]; cbn [snd] in *; [|exact H1].
  pose proof (update_data_cache_present st1 w s f H1) as H2.
  destruct (params_clean _ && data_clean _ && negb force); cbn [snd];
    [exact H2 | now apply rebuild_cache_present].
Qed.

Lemma after_cache_present (st : GP) (c : call) :
  cache_present st -> cache_present (after st c).
Proof.
  intros H. destruct c; cbn [after].
  - split; discriminate.
  - now apply update_params_cache_present.
  - now apply update_data_cache_present.
  - now apply compute_cache_present.
  - unfold lnlikelihood.
    destruct (bind _ _); cbn [snd]; [|exact H].
    pose proof (compute_cache_present st None None None false H) as Hc.
    destruct (compute st None None None false) as [[u|e] st1]; cbn [snd] in *;
      exact Hc.
  - unfold kernel_setitem. destruct (_ <? _)%nat; cbn [snd]; exact H.
  - unfold kernel_assign. destruct (_ =? _)%nat; cbn [snd]; [exact H|].
    destruct (_ =? _)%nat; cbn [snd]; exact H.
  - exact H.
Qed.

(** Whatever sequence of method calls and kernel writes follows the
    construction of an engine, and whether the calls return or raise: when
    [data_clean] is true a factor and a log-determinant are cached, and
    when [params_clean] is true the parameters are cached. *)
Theorem cache_present_after_all (v : kernel_variant)
    (wave sigma kern : option vec) (flux : option scalar_or_vec)
    (cs : list call) :
  cache_present (after_all (init v wave sigma kern flux) cs).
Proof.
  unfold after_all.
  assert (H0 : cache_present (init v wave sigma kern flux)).
  { split; intros H; cbn in H; discriminate. }
  revert H0. generalize (init v wave sigma kern flux).
  induction cs as [|c cs IH]; intros st H; cbn; [exact H|].
  apply IH. now apply after_cache_present.
Qed.

Lemma after_passive_data_clean (st : GP) (c : call) :
  rebuilds c = false -> data_clean st = false ->
  data_clean (after st c) = false.
Proof.
  intros Hc Hd. destruct c; cbn in Hc; try discriminate; cbn [after].
  - reflexivity.
  - unfold update_params. destruct (kernel_to_params _ _ _); cbn; exact Hd.
  - unfold update_data. cbn. now rewrite Hd.
  - unfold kernel_setitem. destruct (_ <? _)%nat; cbn; exact Hd.
  - unfold kernel_assign. destruct (_ =? _)%nat; cbn; [exact Hd|].
    destruct (_ =? _)%nat; cbn; exact Hd.
  - exact Hd.
Qed.

(** Calls of [reset], [update_params] and [update_data] and writes to the
    kernel vector never make [data_clean] true on a new engine, so the
    first call of [compute] never takes the cheap path: whatever its
    arguments, it goes on to build the covariance matrix when
    [update_params] returns. *)
Theorem first_compute_rebuilds (v : kernel_variant)
    (wave sigma kern : option vec) (flux : option scalar_or_vec)
    (cs : list call) (w s : option vec) (f : option scalar_or_vec)
    (force : bool) :
  existsb rebuilds cs = false ->
  let st := after_all (init v wave sigma kern flux) cs in
  data_clean st = false
  /\ compute st w s f force
     = match update_params st with
       | (Raise e, st1) => (Raise e, st1)
       | (Ok _, st1) => rebuild (update_data st1 w s f)
       end.
Proof.
  intros Hcs st.
  assert (Hd : data_clean st = false).
  { unfold st, after_all. clear st.
    assert (H0 : data_clean (init v wave sigma kern flux) = false)
      by reflexivity.
    revert H0 Hcs. generalize (init v wave sigma kern flux).
    induction cs as [|c cs IH]; intros st H Hcs; cbn; [exact H|].
    cbn in Hcs. apply orb_false_iff in Hcs as [Hc Hcs].
    apply IH; [|exact Hcs]. now apply after_passive_data_clean. }
  split; [exact Hd|].
  unfold compute, update_params.
  destruct (kernel_to_params _ _ _) as [p|e]; [|reflexivity].
  assert (Hd2 : data_clean
                  (update_data
                     (set_params st (params_equal (store st) p (_params st))
                                 (Some p)) w s f) = false).
  { unfold update_data. cbn. now rewrite Hd. }
  now rewrite Hd2, andb_false_r.
Qed.

End Sequences.

Lemma first_compute_rebuilds_witness :
  let st :=
    @after_all Cholesky.linalg
      (init ExpSquared (Some [0]) (Some [1]) None None)
      [UpdateParams; UpdateData (Some [0]) (Some [1]) None; KernelSetitem 0 1] in
  data_clean st = false
  /\ @compute Cholesky.linalg st None None None false
     = match update_params st with
       | (Raise e, st1) => (Raise e, st1)
       | (Ok _, st1) => @rebuild Cholesky.linalg (update_data st1 None None None)
       end.
Proof.
  apply (@first_compute_rebuilds Cholesky.linalg ExpSquared (Some [0]) (Some [1])
           None None
           [UpdateParams; UpdateData (Some [0]) (Some [1]) None;
            KernelSetitem 0 1]
           None None None false).
  reflexivity.
Defined.

(** ** The kernel vector and the parameters *)

(** The smooth kernels unpack exactly three numbers: [kernel_to_params]
    returns when the kernel vector has three entries, with their
    exponentials, none of them negative, as the parameters; with any other
    length the unpacking raises [ValueError]. *)
Theorem smooth_kernel_to_params (v : kernel_variant) (sto : list vec) (k : nat) :
  v <> PhotOutlier ->
  match kernel_to_params v sto k with
  | Ok (SmoothParams s asq lsq) =>
      length (nth k sto []) = 3%nat
      /\ [s; asq; lsq] = map exp (nth k sto [])
      /\ 0 <= s /\ 0 <= asq /\ 0 <= lsq
  | Ok (OutlierParams _ _ _) => False
  | Raise e => e = ValueError /\ length (nth k sto []) <> 3%nat
  end.
Proof.
  intros Hv. unfold kernel_to_params.
  destruct v; try contradiction;
    destruct (nth k sto []) as [|a [|b [|c [|d l]]]]; cbn;
    try (split; [reflexivity | lia]);
    repeat split; left; apply exp_pos.
Qed.

Lemma smooth_kernel_to_params_witness :
  match kernel_to_params ExpSquared [[0; 0; 0]; [1; 2; 3]] 1 with
  | Ok (SmoothParams s asq lsq) =>
      length (nth 1 [[0; 0; 0]; [1; 2; 3]] []) = 3%nat
      /\ [s; asq; lsq] = map exp (nth 1 [[0; 0; 0]; [1; 2; 3]] [])
      /\ 0 <= s /\ 0 <= asq /\ 0 <= lsq
  | Ok (OutlierParams _ _ _) => False
  | Raise e => e = ValueError /\ length (nth 1 [[0; 0; 0]; [1; 2; 3]] []) <> 3%nat
  end.
Proof.
  apply (smooth_kernel_to_params ExpSquared [[0; 0; 0]; [1; 2; 3]] 1).
  discriminate.
Defined.

(** [PhotOutlier.kernel_to_params] never raises and splits the kernel vector
    without loss: the amplitudes, the locations and, when the length is odd,
    the jitter, in this order, are the vector; there are as many amplitudes
    as locations; and the jitter is 0 when the length is even. *)
Theorem PhotOutlier_kernel_to_params (sto : list vec) (k : nat) :
  exists jitter locs amps,
    kernel_to_params PhotOutlier sto k = Ok (OutlierParams jitter locs amps)
    /\ read_view sto amps ++ read_view sto locs
       ++ (if Nat.odd (length (nth k sto [])) then [jitter] else [])
       = nth k sto []
    /\ length (read_view sto amps) = length (read_view sto locs)
    /\ (Nat.odd (length (nth k sto [])) = false -> jitter = 0).
Proof.
  unfold kernel_to_params.
  set (kern := nth k sto []).
  set (odd := Nat.odd (length kern)).
  set (nout := ((length kern - (if odd then 1 else 0)) / 2)%nat).
  eexists _, _, _. split; [reflexivity|].
  unfold read_view, slice. cbn [v_buf v_start v_stop]. fold kern.
  assert (Hn : (2 * nout = length kern - (if odd then 1 else 0))%nat)
    by apply odd_half.
  clearbody nout.
  replace (nout - 0)%nat with nout by lia.
  replace (2 * nout - nout)%nat with nout by lia.
  cbn [skipn].
  assert (Hle : (2 * nout <= length kern)%nat) by lia.
  split; [|split].
  - rewrite app_assoc, firstn_app_skipn.
    replace (nout + nout)%nat with (2 * nout)%nat by lia.
    rewrite Hn. unfold odd in *. destruct (Nat.odd (length kern)) eqn:E.
    + assert (Hne : kern <> []).
      { intros H0. rewrite H0 in E. discriminate. }
      etransitivity; [|symmetry; apply (app_removelast_last 0 Hne)].
      f_equal. rewrite removelast_firstn_len. f_equal. lia.
    + rewrite app_nil_r, Nat.sub_0_r. apply firstn_all.
  - rewrite !length_firstn, length_skipn. lia.
  - unfold odd. intros ->. reflexivity.
Qed.

(** ** The likelihood on one point *)

Lemma ExpSquared_one_point_cov_general (sto : list vec) (k : nat)
    (s asq lsq sigma : R) (pc dc : bool) (F : option factor)
    (ld : option xfloat) (n : nat) :
  rmap to_matrix
       (construct_covariance
          (mkGP ExpSquared sto k (Some (SmoothParams s asq lsq)) pc dc
                (Some [0]) (Some [sigma]) (Scalar 1) F ld n))
  = Ok [[asq + sigma ^ 2 + s ^ 2]].
Proof.
  unfold construct_covariance, base_construct_covariance. cbn.
  unfold construct_kernel, ExpSquared_construct_kernel, smooth_params. cbn.
  rewrite Reqb_refl. cbn. unfold to_matrix. cbn.
  do 3 f_equal.
  replace (- (0 - 0) ^ 2 / (2 * lsq)) with 0 by (unfold Rdiv; ring).
  rewrite exp_0. ring.
Qed.

Lemma ln_sqrt_double (v : R) : 0 < v -> 2 * ln (sqrt v) = ln v.
Proof.
  intros Hv. assert (Hs : 0 < sqrt v) by now apply sqrt_lt_R0.
  rewrite <- (sqrt_sqrt v) at 2 by lra.
  rewrite ln_mult by assumption. ring.
Qed.

(** Over the real numbers, the value that the likelihood computes on one
    point is the logarithm of the density at [r] of a normal variable of
    mean 0 and variance [v]. *)
Lemma one_point_density (r v : R) :
  0 < v ->
  -0.5 * (r * (r / sqrt v / sqrt v) + 2 * ln (sqrt v) + ln (2 * PI))
  = -0.5 * (r ^ 2 / v + ln (2 * PI * v)).
Proof.
  intros Hv. assert (Hs : 0 < sqrt v) by now apply sqrt_lt_R0.
  rewrite ln_sqrt_double by assumption.
  rewrite (ln_mult (2 * PI) v); [|pose proof PI_RGT_0; lra|assumption].
  replace (r * (r / sqrt v / sqrt v)) with (r ^ 2 / (sqrt v * sqrt v))
    by (field; lra).
  rewrite sqrt_sqrt by lra. ring.
Qed.

(** End to end on one data point. A squared-exponential engine built by
    [__init__] on the wavelength 0 with the uncertainty [sigma], flux 1 and
    the kernel vector [[k0, k1, k2]], with the textbook Cholesky
    factorization: [lnlikelihood([r])] builds the variance
    [v = exp k1 + (sigma^2 + exp(k0)^2)], factorizes it to [U = sqrt v] and
    returns [-0.5 * (r * (r / U / U) + 2 * log U + log(2 pi))]. The bounds
    keep every intermediate value of the computation inside the range of
    the floating-point numbers, where the real numbers stand for them. *)
Theorem lnlikelihood_one_point (k0 k1 k2 sigma r : R) :
  Rabs k0 <= 100 -> Rabs k1 <= 100 -> Rabs k2 <= 100 ->
  Rabs sigma <= 10 ^ 100 -> Rabs r <= 10 ^ 100 ->
  let v := exp k1 + (sigma ^ 2 + exp k0 ^ 2) in
  let U := sqrt v in
  fst (@lnlikelihood Cholesky.linalg (one_point ExpSquared [k0; k1; k2] sigma) [r])
  = Ok (Finite (-0.5 * (r * (r / U / U) + 2 * ln U + ln (2 * PI)))).
Proof.
  intros _ _ _ _ _ v U.
  assert (Hv : 0 < v).
  { unfold v. pose proof (exp_pos k1). pose proof (pow2_ge_0 sigma).
    pose proof (exp_pos k0). nra. }
  assert (Hsq : 0 < U) by now apply sqrt_lt_R0.
  rewrite one_point_eq. unfold lnlikelihood.
  cbn [_sigma not_none bind length py_assert Nat.eqb].
  set (p := SmoothParams (exp k0) (exp k1) (exp k2)).
  rewrite (compute_step _ _ _ _ _ p) by reflexivity.
  cbn zeta. cbn [_params params_equal params_clean data_clean update_data set_params set_data andb negb].
  erewrite (@rebuild_returns Cholesky.linalg _ [[v]] ([[U]], false)).
  - cbn [fst snd factorized_Sigma log_det set_clean set_factor count_factorization not_none bind cho_solve Cholesky.linalg].
    rewrite solve_1x1 by lra. cbn [bind].
    unfold np_dot. cbn [length Nat.eqb bind dot].
    rewrite log_det_1x1 by assumption. cbn.
    do 2 f_equal. field. lra.
  - etransitivity; [apply ExpSquared_one_point_cov_general|].
    do 3 f_equal. unfold v. ring.
  - apply factorize_1x1. assumption.
  - now rewrite log_det_1x1.
Qed.

Lemma lnlikelihood_one_point_witness :
  let v := exp 0 + (1 ^ 2 + exp 0 ^ 2) in
  let U := sqrt v in
  fst (@lnlikelihood Cholesky.linalg (one_point ExpSquared [0; 0; 0] 1) [1])
  = Ok (Finite (-0.5 * (1 * (1 / U / U) + 2 * ln U + ln (2 * PI)))).
Proof.
  assert (H1 : Rabs 1 <= 10 ^ 100).
  { rewrite Rabs_R1. apply pow_R1_Rle. lra. }
  assert (H0 : Rabs 0 <= 100) by (rewrite Rabs_R0; lra).
  exact (lnlikelihood_one_point 0 0 0 1 1 H0 H0 H0 H1 H1).
Defined.

(** ** bsfh.io.read_results *)

Lemma handle_cases (e : exn) (gp : option GP) :
  ReadResults.handle e gp = (Ok ReadResults.DeltaZero, gp)
  \/ (ReadResults.handle e gp = (Raise e, gp) /\ ReadResults.caught e = false).
Proof.
  unfold ReadResults.handle. destruct (ReadResults.caught e); [left|right]; auto.
Qed.

(** [model_comp] never reports a predicted mean: for every engine, every
    kernel vector and all data, the [try] block either leaves [delta = 0] or
    lets an exception escape that its handler does not catch, since
    [predict] returns for no engine. *)
Theorem model_comp_delta_is_zero {L : LinAlg} (gp : option GP) (gp_params : vec)
    (logarithmic : bool) (spectrum unc : option vec) (wave mu sed : vec) :
  let out :=
    ReadResults.model_comp_delta gp gp_params logarithmic spectrum unc
                                 wave mu sed in
  fst out = Ok ReadResults.DeltaZero
  \/ exists e, fst out = Raise e /\ ReadResults.caught e = false.
Proof.
  cbn zeta.
  assert (Hh : forall e g,
             fst (ReadResults.handle e g) = Ok ReadResults.DeltaZero
             \/ exists e', fst (ReadResults.handle e g) = Raise e'
                           /\ ReadResults.caught e' = false).
  { intros e g. destruct (handle_cases e g) as [->|[-> Hc]]; [now left|].
    right. now exists e. }
  unfold ReadResults.model_comp_delta.
  destruct gp as [st|]; [|now left].
  destruct (kernel_assign st gp_params) as [[[]|e] st1]; [|apply Hh].
  destruct spectrum as [spec|]; [|now left].
  destruct unc as [u|]; [|now left].
  destruct (compute st1 _ _ _ _) as [[[]|e] st2]; [|apply Hh].
  destruct (ReadResults.vsub_b spec mu) as [d|e]; cbn [bind]; [|apply Hh].
  set (w := if logarithmic then Some wave else None).
  assert (Hp : exists e, predict st2 d w None = Raise e).
  { unfold predict.
    destruct w as [w'|].
    - destruct (construct_covariance_cross st2 (Some w') None) as [c|e];
        cbn [bind]; [|now exists e].
      destruct (construct_covariance_test_raises st2 (Some w') None) as [e ->].
      now exists e.
    - destruct (construct_covariance_cross st2 (_wave st2) (Some (_flux st2)))
        as [c|e]; cbn [bind]; [|now exists e].
      destruct (construct_covariance_test_raises st2 (_wave st2)
                  (Some (_flux st2))) as [e ->].
      now exists e. }
  destruct Hp as [e ->]. apply Hh.
Qed.

Lemma INR_to_nat (z : Z) : (0 <= z)%Z -> INR (Z.to_nat z) = IZR z.
Proof. intros H. rewrite INR_IZR_INZ, Z2Nat.id by assumption. reflexivity. Qed.

(** The grid of [param_evol] has room for every panel: with
    [ndim = npar + 1] panels to draw, [nx] is the integer square root of
    [ndim], the [nx * ny] axes are at least [ndim], no row of the grid is
    left empty, and there are at least as many columns as rows. *)
Theorem panel_grid_fits (npar : nat) :
  let nx := fst (ReadResults.panel_grid npar) in
  let ny := snd (ReadResults.panel_grid npar) in
  (1 <= nx)%nat
  /\ (nx * nx <= npar + 1 < (nx + 1) * (nx + 1))%nat
  /\ (npar + 1 <= nx * ny)%nat
  /\ (nx * (ny - 1) < npar + 1)%nat
  /\ (nx <= ny)%nat.
Proof.
  unfold ReadResults.panel_grid. cbn zeta. cbn [fst snd].
  set (ndim := (npar + 1)%nat).
  assert (Hn : 1 <= INR ndim).
  { change 1 with (INR 1). apply le_INR. unfold ndim. lia. }
  set (s := sqrt (INR ndim)).
  assert (Hs1 : 1 <= s).
  { unfold s. rewrite <- sqrt_1. apply sqrt_le_1_alt. exact Hn. }
  assert (Hss : s * s = INR ndim) by (apply sqrt_sqrt; lra).
  pose proof (Zfloor_bound s) as [Hf1 Hf2].
  assert (Hfz : (1 <= Zfloor s)%Z) by (apply Zfloor_lub; exact Hs1).
  set (nx := Z.to_nat (Zfloor s)).
  assert (Hnx : INR nx = IZR (Zfloor s)) by (apply INR_to_nat; lia).
  assert (Hnx1 : 1 <= INR nx) by (rewrite Hnx; apply IZR_le in Hfz; exact Hfz).
  rewrite <- Hnx in Hf1, Hf2.
  set (q := INR ndim * 1 / INR nx).
  assert (Hq : q * INR nx = INR ndim) by (unfold q; field; lra).
  pose proof (Zceil_bound q) as [Hc1 Hc2].
  assert (Hsq : INR nx * INR nx <= INR ndim) by (rewrite <- Hss; nra).
  assert (Hqx : INR nx <= q) by nra.
  assert (Hcz : (1 <= Zceil q)%Z).
  { assert (0 < IZR (Zceil q)) by lra. apply lt_IZR in H. lia. }
  set (ny := Z.to_nat (Zceil q)).
  assert (Hny : INR ny = IZR (Zceil q)) by (apply INR_to_nat; lia).
  rewrite <- Hny in Hc1, Hc2.
  assert (Hny1 : (1 <= ny)%nat) by (unfold ny; lia).
  repeat split.
  - unfold nx. lia.
  - apply INR_le. rewrite mult_INR. exact Hsq.
  - apply INR_lt. rewrite mult_INR, plus_INR. change (INR 1) with 1.
    fold ndim. rewrite <- Hss. nra.
  - apply INR_le. rewrite mult_INR. fold ndim. nra.
  - apply INR_lt. rewrite mult_INR, minus_INR by exact Hny1.
    change (INR 1) with 1. fold ndim. nra.
  - apply INR_le. lra.
Qed.

Module ReadResultsFacts.

Import String.
Import ReadResults.
Local Open Scope string_scope.

(** [mapname] never returns the old class name ['Result'], and mapping a
    name twice is the same as mapping it once: the new name is not itself a
    key of [renametable]. *)
Theorem mapname_idempotent (name : string) :
  mapname (mapname name) = mapname name /\ mapname name <> "Result".
Proof.
  unfold mapname, renametable. cbn [table_get].
  destruct (String.eqb name "Result") eqn:E.
  - split; [reflexivity | discriminate].
  - rewrite E. split; [reflexivity|].
    now apply String.eqb_neq.
Qed.

Section ObsdictFacts.

Variable V : Type.
Variable wave_effective : V -> V.
Variable positive : V -> V.

(** What [obsdict(inobs, photflag)] does, case by case. It returns for
    [photflag] 0 with the dictionary as it is. It returns for [photflag] 1
    exactly when [inobs] has the four photometric keys, and then the
    result holds the effective wavelengths, the fluxes, their uncertainties
    and the mask under the spectroscopic names and agrees with [inobs] on
    every other key. Otherwise it raises [KeyError] for the first
    of the keys [filters], [maggies], [maggies_unc], [phot_mask] that
    [inobs] lacks, or, for any other [photflag], fails at the [return] on
    the unbound name [outn]. *)
Theorem obsdict_cases (inobs : dict V) (photflag : Z) :
  match obsdict V wave_effective positive inobs photflag with
  | Returned obs outn marker =>
      (photflag = 0%Z /\ obs = inobs /\ outn = "spectrum" /\ marker = None)
      \/ (photflag = 1%Z /\ outn = "sed" /\ marker = Some "o"
          /\ exists f m u p,
               inobs "filters" = Some f /\ inobs "maggies" = Some m
               /\ inobs "maggies_unc" = Some u /\ inobs "phot_mask" = Some p
               /\ obs "wavelength" = Some (wave_effective f)
               /\ obs "spectrum" = Some m
               /\ obs "unc" = Some u
               /\ obs "mask" = Some (positive p)
               /\ forall k, k <> "wavelength" -> k <> "spectrum" ->
                            k <> "unc" -> k <> "mask" -> obs k = inobs k)
  | Failed (KeyError k) =>
      photflag = 1%Z
      /\ inobs k = None
      /\ exists pre post,
           ["filters"; "maggies"; "maggies_unc"; "phot_mask"]
           = (pre ++ k :: post)%list
           /\ Forall (fun k' => inobs k' <> None) pre
  | Failed UnboundLocalError => photflag <> 0%Z /\ photflag <> 1%Z
  end.
Proof.
  unfold obsdict.
  destruct (Z.eqb_spec photflag 0) as [->|H0]; [left; repeat split|].
  destruct (Z.eqb_spec photflag 1) as [->|H1]; [|now split].
  unfold dict_get.
  destruct (inobs "filters") as [f|] eqn:Ef.
  2:{ repeat split; [exact Ef|]. exists [], ["maggies"; "maggies_unc"; "phot_mask"].
      split; [reflexivity | constructor]. }
  cbn [dict_set String.eqb Ascii.eqb Bool.eqb].
  destruct (inobs "maggies") as [m|] eqn:Em.
  2:{ repeat split; [exact Em|]. exists ["filters"], ["maggies_unc"; "phot_mask"].
      split; [reflexivity|]. repeat constructor. congruence. }
  destruct (inobs "maggies_unc") as [u|] eqn:Eu.
  2:{ repeat split; [exact Eu|]. exists ["filters"; "maggies"], ["phot_mask"].
      split; [reflexivity|]. repeat constructor; congruence. }
  destruct (inobs "phot_mask") as [p|] eqn:Ep.
  2:{ repeat split; [exact Ep|]. exists ["filters"; "maggies"; "maggies_unc"], [].
      split; [reflexivity|]. repeat constructor; congruence. }
  right. repeat split. exists f, m, u, p. repeat split.
  intros k Hw Hs Hu Hm. unfold dict_set.
  apply String.eqb_neq in Hw, Hs, Hu, Hm. now rewrite Hw, Hs, Hu, Hm.
Qed.

End ObsdictFacts.

End ReadResultsFacts.
